(** * dscl/skiplist.h: the skip list template, embedded and checked

    The development follows
    [Week2_3-Data-Structure-I/templates/cpp-skiplist-template/dscl/skiplist.h].

    The C++ objects live on the free store and are linked by raw pointers, so
    the embedding keeps an explicit arena of nodes addressed by index, and every
    operation runs in a small outcome monad: [Ok] for a normal return, [Fault]
    for the places where the C++ program leaves defined behaviour (indexing a
    vector or an array past its end, dereferencing [nullptr], reading an
    uninitialised local, flowing off the end of a value-returning function),
    and [Diverge] for a loop that never exits. *)

From Stdlib Require Import ZArith Bool Lia.
From stdpp Require Import base option list.

Set Default Proof Using "Type".

(** ** Outcomes *)

Inductive fault : Type :=
  | OutOfRange      (* [v[n]] with [n] not below the length of [v] *)
  | NullDeref       (* [p->...] with [p == nullptr] *)
  | WildPointer     (* [p->...] with [p] not the address of a live node *)
  | Uninitialized   (* read of a local that was never assigned *)
  | NoReturn.       (* end of a [bool] function reached without [return] *)

Inductive outcome (A : Type) : Type :=
  | Ok (a : A)
  | Fault (f : fault)
  | Diverge.

Arguments Ok {A} a.
Arguments Fault {A} f.
Arguments Diverge {A}.

#[global] Instance outcome_ret : MRet outcome := @Ok.
#[global] Instance outcome_bind : MBind outcome := fun A B f m =>
  match m with
  | Ok a => f a
  | Fault e => Fault e
  | Diverge => Diverge
  end.

Definition is_ok {A} (m : outcome A) : bool :=
  match m with Ok _ => true | _ => false end.

(** [returned v m]: the call [m] returned normally with the value [v]. *)
Definition returned (v : bool) (m : outcome bool) : bool :=
  match m with Ok b => eqb b v | _ => false end.

(** [for (i = from; <count more rounds>; i++) body] over a threaded state. *)
Fixpoint for_loop {St : Type} (i count : nat) (body : nat → St → outcome St)
    (s : St) : outcome St :=
  match count with
  | O => Ok s
  | S count' => s' ← body i s; for_loop (S i) count' body s'
  end.

(** ** Pointers *)

(** An address is an index into the arena; a pointer is an address or
    [nullptr]. *)
Abbreviation addr := nat (only parsing).
Abbreviation ptr := (option nat) (only parsing).

(** [enum { kMaxHeight = 12 }] *)
Definition kMaxHeight : nat := 12.

Section SkipList.

(** The template parameters.  The operations compare keys with the key
    type's own [<] and [==]; head nodes are built from the literal [0]. *)
Context {Key : Type} (key_lt key_eq : Key → Key → bool) (key0 : Key).
Context {Comparator : Type}.

(** [util/random.h] is not part of the sources: the generator is taken as a
    parameter, [Random seed] building its state and [Uniform r n] drawing a
    number and advancing the state. *)
Context {Rng : Type} (Random : Z → Rng) (Uniform : Rng → Z → Z * Rng).

(** [std::vector<Node*> next_] is declared without a size and nothing in
    the source resizes it: the constructor only assigns [next_[i]] for
    [i < height].  Its comments say the array is resized to, and has,
    "length equal to the node height".  [slots height] is the number of
    entries the vector of a node built with [height] has.  Two choices come
    from the source and are named after this section: [slots_declared], what
    the code does (no entry), and [slots_doc], what its comments say
    ([height] entries).  A third, [slots_spare] (one entry more), is neither:
    it only shows, in examples, what the operations would go on to do if
    their stores at index [height] were in range.  The results are stated
    for [slots_declared] and [slots_doc], for every [slots], or for any
    arena, whatever the length of its vectors. *)
Context (slots : nat → nat).

(** The [int]s of the source (heights, levels, loop counters) stay between 0
    and [kMaxHeight] + 1: they are natural numbers here. *)

(** *** struct Node *)

Record Node : Type := mkNode {
  key : Key;
  height : nat;           (* the constructor argument; no operation reads it *)
  next_ : list ptr
}.

(** [Node* Next(int n) { return next_[n]; }] *)
Definition Next (x : Node) (n : nat) : outcome ptr :=
  match next_ x !! n with
  | Some p => Ok p
  | None => Fault OutOfRange
  end.

(** [void SetNext(int n, Node* x) { next_[n] = x; }] *)
Definition SetNext (nd : Node) (n : nat) (x : ptr) : outcome Node :=
  if decide (n < length (next_ nd))
  then Ok (mkNode (key nd) (height nd) (<[n:=x]> (next_ nd)))
  else Fault OutOfRange.

(** [Node(const Key& k, int height)]: the loop stores [nullptr] at every
    index below [height]. *)
Definition Node_ctor (k : Key) (h : nat) : outcome Node :=
  for_loop 0 h (fun i nd => SetNext nd i None)
           (mkNode k h (replicate (slots h) None)).

(** *** The arena *)

Definition load (m : list Node) (a : addr) : outcome Node :=
  match m !! a with
  | Some nd => Ok nd
  | None => Fault WildPointer
  end.

Definition deref (m : list Node) (p : ptr) : outcome Node :=
  match p with
  | Some a => load m a
  | None => Fault NullDeref
  end.

(** [a->Next(n)] and [a->SetNext(n, x)] for a non-null [a]. *)
Definition node_Next (m : list Node) (a : addr) (n : nat) : outcome ptr :=
  nd ← load m a; Next nd n.

Definition node_SetNext (m : list Node) (a : addr) (n : nat) (x : ptr)
  : outcome (list Node) :=
  nd ← load m a; nd' ← SetNext nd n x; Ok (<[a:=nd']> m).

(** [Node* NewNode(const Key& key, int height) { return new Node(key, height); }] *)
Definition NewNode (m : list Node) (k : Key) (h : nat)
  : outcome (addr * list Node) :=
  nd ← Node_ctor k h; Ok (length m, m ++ [nd]).

(** *** class SkipList *)

Record SkipList : Type := mkSkipList {
  compare_ : Comparator;
  head_ : addr;
  max_height_ : nat;
  rnd_ : Rng;
  arena : list Node
}.

Definition with_arena (l : SkipList) (m : list Node) : SkipList :=
  mkSkipList (compare_ l) (head_ l) (max_height_ l) (rnd_ l) m.
Definition with_max_height (l : SkipList) (h : nat) : SkipList :=
  mkSkipList (compare_ l) (head_ l) h (rnd_ l) (arena l).
Definition with_rnd (l : SkipList) (r : Rng) : SkipList :=
  mkSkipList (compare_ l) (head_ l) (max_height_ l) r (arena l).

(** [explicit SkipList(Comparator cmp)
      : compare_(cmp), head_(new Node(0, kMaxHeight)),
        rnd_(Random(114514)), max_height_(1) {}] *)
Definition SkipList_ctor (cmp : Comparator) : outcome SkipList :=
  '(h, m) ← NewNode [] key0 kMaxHeight;
  Ok (mkSkipList cmp h 1 (Random 114514) m).

(** *** RandomHeight *)

(** [while (rnd_.Uniform(4) == 0 && level < kMaxHeight) level += 1;]
    The draw is the left operand of [&&], so it is made in every round. *)
Fixpoint RandomHeight_loop (fuel level : nat) (r : Rng) : outcome (nat * Rng) :=
  match fuel with
  | O => Diverge
  | S fuel' =>
      let '(u, r') := Uniform r 4 in
      if (u =? 0)%Z && (level <? kMaxHeight)
      then RandomHeight_loop fuel' (level + 1) r'
      else Ok (level, r')
  end.

Definition RandomHeight (r : Rng) : outcome (nat * Rng) :=
  RandomHeight_loop kMaxHeight 1 r.

(** *** The descent shared by Insert and Remove *)

(** [Node* preNode[kMaxHeight];] an array of twelve pointers, none of them
    assigned: [None] is an entry that was never written. *)
Definition preNode_fresh : list (option addr) := replicate kMaxHeight None.

Definition array_store (a : list (option addr)) (i : nat) (x : addr)
  : outcome (list (option addr)) :=
  if decide (i < length a) then Ok (<[i:=Some x]> a) else Fault OutOfRange.

Definition array_load (a : list (option addr)) (i : nat) : outcome addr :=
  match a !! i with
  | None => Fault OutOfRange
  | Some None => Fault Uninitialized
  | Some (Some x) => Ok x
  end.

(** The loop condition
    [start->Next(height) != nullptr && start->Next(height)->key < key]:
    when it holds, the node [start->Next(height)] the loop moves to. *)
Definition walk_cond (m : list Node) (k : Key) (level : nat) (start : addr)
  : outcome (option addr) :=
  nx ← node_Next m start level;
  match nx with
  | None => Ok None
  | Some a => nd ← load m a; Ok (if key_lt (key nd) k then Some a else None)
  end.

(** [while (...) start = start->Next(height);]
    The arena is not written during the loop, so a walk that takes more
    rounds than there are nodes has come back to a node it left and never
    ends: the fuel [S (length m)] given by the callers is all a walk that
    ends can use ([walk_fuel_enough]). *)
Fixpoint walk (fuel : nat) (m : list Node) (k : Key) (level : nat) (start : addr)
  : outcome addr :=
  match fuel with
  | O => Diverge
  | S fuel' =>
      c ← walk_cond m k level start;
      match c with
      | Some a => walk fuel' m k level a
      | None => Ok start
      end
  end.

(** [moves t a b]: from [a] the loop makes [t] moves and is then at [b]. *)
Fixpoint moves (m : list Node) (k : Key) (level : nat) (t : nat) (a b : addr)
  : Prop :=
  match t with
  | O => a = b
  | S t' => ∃ c, walk_cond m k level a = Ok (Some c) ∧ moves m k level t' c b
  end.

(** [for (int height = max_height_; height >= 1; height--) {
       while ...; preNode[height] = start; }] *)
Fixpoint descend (m : list Node) (k : Key) (level : nat) (start : addr)
    (preNode : list (option addr)) : outcome (addr * list (option addr)) :=
  match level with
  | O => Ok (start, preNode)
  | S level' =>
      start' ← walk (S (length m)) m k level start;
      preNode' ← array_store preNode level start';
      descend m k level' start' preNode'
  end.

(** The same loop without the [preNode] store, as in [Contains]. *)
Fixpoint descend_ro (m : list Node) (k : Key) (level : nat) (start : addr)
  : outcome addr :=
  match level with
  | O => Ok start
  | S level' =>
      start' ← walk (S (length m)) m k level start;
      descend_ro m k level' start'
  end.

(** [start != nullptr && start->key == key] *)
Definition key_matches (m : list Node) (start : ptr) (k : Key) : outcome bool :=
  match start with
  | None => Ok false
  | Some a => nd ← load m a; Ok (key_eq (key nd) k)
  end.

(** *** Insert *)

(** [head_->SetNext(i, NewNode(key, i));] *)
Definition Insert_raise (hd : addr) (k : Key) (i : nat) (m : list Node)
  : outcome (list Node) :=
  '(a, m1) ← NewNode m k i;
  node_SetNext m1 hd i (Some a).

(** [Node* newNode = NewNode(key, i);
     newNode->SetNext(i, preNode[i]->Next(i));
     preNode[i]->SetNext(i, newNode);] *)
Definition Insert_link (preNode : list (option addr)) (k : Key) (i : nat)
    (m : list Node) : outcome (list Node) :=
  '(newNode, m1) ← NewNode m k i;
  p ← array_load preNode i;
  nx ← node_Next m1 p i;
  m2 ← node_SetNext m1 newNode i nx;
  p' ← array_load preNode i;
  node_SetNext m2 p' i (Some newNode).

(** The part under [// insert node]: draw the height, raise [max_height_]
    when the draw exceeds it, then link level by level. *)
Definition Insert_node (l : SkipList) (k : Key) (preNode : list (option addr))
  : outcome SkipList :=
  '(random_height, r) ← RandomHeight (rnd_ l);
  let l1 := with_rnd l r in
  l2 ← (if decide (max_height_ l1 < random_height)
        then
          m ← for_loop (max_height_ l1 + 1) (random_height - max_height_ l1)
                (Insert_raise (head_ l1) k) (arena l1);
          Ok (with_max_height (with_arena l1 m) random_height)
        else Ok l1);
  m ← for_loop 1 (max_height_ l2) (Insert_link preNode k) (arena l2);
  Ok (with_arena l2 m).

Definition Insert (l : SkipList) (k : Key) : outcome SkipList :=
  '(start, preNode) ← descend (arena l) k (max_height_ l) (head_ l) preNode_fresh;
  start0 ← node_Next (arena l) start 0;
  dup ← key_matches (arena l) start0 k;
  if dup : bool then Ok l else Insert_node l k preNode.

(** *** Remove *)

(** [preNode[i]->SetNext(i, start->Next(i));] *)
Definition Remove_unlink (preNode : list (option addr)) (start : ptr) (i : nat)
    (m : list Node) : outcome (list Node) :=
  p ← array_load preNode i;
  nd ← deref m start;
  nx ← Next nd i;
  node_SetNext m p i nx.

Definition Remove (l : SkipList) (k : Key) : outcome (bool * SkipList) :=
  '(start, preNode) ← descend (arena l) k (max_height_ l) (head_ l) preNode_fresh;
  start0 ← node_Next (arena l) start 0;
  found ← key_matches (arena l) start0 k;
  if found : bool then Ok (false, l)
  else
    _ ← for_loop 1 (max_height_ l) (Remove_unlink preNode start0) (arena l);
    Fault NoReturn.

(** *** Contains *)

Definition Contains (l : SkipList) (k : Key) : outcome bool :=
  start ← descend_ro (arena l) k kMaxHeight (head_ l);
  start0 ← node_Next (arena l) start 0;
  key_matches (arena l) start0 k.

(** *** class Iterator *)

(** The iterator keeps a pointer to its list; here the list is passed to
    every method that looks at it. *)
Record Iterator : Type := mkIterator {
  node_ : ptr;
  prevNode_ : ptr
}.

(** [explicit Iterator(const SkipList* list)
      : list_(list), node_(list->head_), prevNode_(nullptr) {}] *)
Definition Iterator_ctor (l : SkipList) : Iterator :=
  mkIterator (Some (head_ l)) None.

(** [bool Valid() const { return node_ != nullptr; }] *)
Definition Valid (it : Iterator) : bool :=
  match node_ it with Some _ => true | None => false end.

(** [const Key& key() const { return node_->key; }] *)
Definition Iterator_key (l : SkipList) (it : Iterator) : outcome Key :=
  nd ← deref (arena l) (node_ it); Ok (key nd).

(** [void Next() { prevNode_ = node_; node_ = node_->Next(1); }] *)
Definition Iterator_Next (l : SkipList) (it : Iterator) : outcome Iterator :=
  nd ← deref (arena l) (node_ it);
  nx ← Next nd 1;
  Ok (mkIterator nx (node_ it)).

(** [void Prev() { node_ = prevNode_; }] *)
Definition Prev (it : Iterator) : Iterator :=
  mkIterator (prevNode_ it) (prevNode_ it).

(** [while (node_ != nullptr && node_->key < target) {
       prevNode_ = node_; node_ = node_->Next(1); }] *)
Fixpoint Seek_loop (fuel : nat) (m : list Node) (target : Key) (it : Iterator)
  : outcome Iterator :=
  match fuel with
  | O => Diverge
  | S fuel' =>
      match node_ it with
      | None => Ok it
      | Some a =>
          nd ← load m a;
          if key_lt (key nd) target
          then nx ← Next nd 1; Seek_loop fuel' m target (mkIterator nx (node_ it))
          else Ok it
      end
  end.

Definition Seek (l : SkipList) (it : Iterator) (target : Key) : outcome Iterator :=
  Seek_loop (S (length (arena l))) (arena l) target it.

(** [void SeekToFirst() { prevNode_ = nullptr; node_ = list_->head_; }] *)
Definition SeekToFirst (l : SkipList) (it : Iterator) : Iterator :=
  mkIterator (Some (head_ l)) None.

(** [while (node_->Next(1) != nullptr) {
       prevNode_ = node_; node_ = node_->Next(1); }] *)
Fixpoint SeekToLast_loop (fuel : nat) (m : list Node) (it : Iterator)
  : outcome Iterator :=
  match fuel with
  | O => Diverge
  | S fuel' =>
      nd ← deref m (node_ it);
      nx ← Next nd 1;
      match nx with
      | None => Ok it
      | Some _ => SeekToLast_loop fuel' m (mkIterator nx (node_ it))
      end
  end.

Definition SeekToLast (l : SkipList) (it : Iterator) : outcome Iterator :=
  SeekToLast_loop (S (length (arena l))) (arena l) it.

(** *** Sequences of calls *)

Inductive call : Type :=
  | CallInsert (k : Key)
  | CallRemove (k : Key)
  | CallContains (k : Key).

(** What a call hands back: nothing for [Insert], a [bool] otherwise. *)
Definition do_call (l : SkipList) (c : call) : outcome (option bool * SkipList) :=
  match c with
  | CallInsert k => l' ← Insert l k; Ok (None, l')
  | CallRemove k => '(b, l') ← Remove l k; Ok (Some b, l')
  | CallContains k => b ← Contains l k; Ok (Some b, l)
  end.

Fixpoint do_calls (l : SkipList) (cs : list call)
  : outcome (list (option bool) * SkipList) :=
  match cs with
  | [] => Ok ([], l)
  | c :: cs' =>
      '(r, l1) ← do_call l c;
      '(rs, l2) ← do_calls l1 cs';
      Ok (r :: rs, l2)
  end.

(** A program: construct a list, then make the calls in order. *)
Definition program (cmp : Comparator) (cs : list call)
  : outcome (list (option bool) * SkipList) :=
  l ← SkipList_ctor cmp; do_calls l cs.

(** *** Notions used to state the properties *)

(** The list right after construction, when the head's vector has the
    twelve entries the comments give it. *)
Definition fresh_list (cmp : Comparator) : SkipList :=
  mkSkipList cmp 0 1 (Random 114514)
             [mkNode key0 kMaxHeight (replicate kMaxHeight None)].

(** How many of the first [n] draws of [Uniform(4)] are 0 in a row, and the
    generator after [n] draws. *)
Fixpoint zero_run (n : nat) (r : Rng) : nat :=
  match n with
  | O => 0
  | S n' =>
      let '(u, r') := Uniform r 4 in
      if (u =? 0)%Z then S (zero_run n' r') else 0
  end.

Fixpoint draws (n : nat) (r : Rng) : Rng :=
  match n with
  | O => r
  | S n' => draws n' (snd (Uniform r 4))
  end.

(** The nodes met from the head along the links of one level, in order. *)
Fixpoint chain_from (fuel : nat) (m : list Node) (level : nat) (p : ptr)
  : list addr :=
  match fuel, p with
  | S fuel', Some a =>
      a :: match m !! a with
           | Some nd => chain_from fuel' m level (default None (next_ nd !! level))
           | None => []
           end
  | _, _ => []
  end.

Definition level_chain (l : SkipList) (level : nat) : list addr :=
  match arena l !! head_ l with
  | Some hd =>
      chain_from (length (arena l)) (arena l) level
                 (default None (next_ hd !! level))
  | None => []
  end.

(** Invariants 1 and 2 of the data model. *)
Definition level0_increasing (l : SkipList) : Prop :=
  ∀ i a b na nb,
    level_chain l 0 !! i = Some a → level_chain l 0 !! S i = Some b →
    arena l !! a = Some na → arena l !! b = Some nb →
    key_lt (key na) (key nb) = true.

Definition no_duplicate_keys (l : SkipList) : Prop :=
  ∀ a b na nb,
    a ≠ b → a ≠ head_ l → b ≠ head_ l →
    arena l !! a = Some na → arena l !! b = Some nb →
    key_eq (key na) (key nb) = false.

Definition levels_nested (l : SkipList) : Prop :=
  ∀ L, level_chain l (S L) `sublist_of` level_chain l L.

Definition structure_ok (l : SkipList) : Prop :=
  level0_increasing l ∧ no_duplicate_keys l ∧ levels_nested l.

(** The heights of the nodes other than the head. *)
Definition node_heights (l : SkipList) : list nat :=
  height <$> delete (head_ l) (arena l).

(** What every list built by the public operations looks like (see
    [program_built]): the head is the first node of the arena,
    [max_height_] is still 1, no node has a level-0 link, and every node
    but the head was created with height 1. *)
Definition level0_unlinked (m : list Node) : Prop :=
  ∀ a nd p, m !! a = Some nd → next_ nd !! 0 = Some p → p = None.

Definition built (l : SkipList) : Prop :=
  head_ l = 0 ∧ max_height_ l = 1 ∧ is_Some (arena l !! 0)
  ∧ level0_unlinked (arena l)
  ∧ (∀ a nd, arena l !! S a = Some nd → height nd = 1).

(** The value a call of [Remove] hands back, without the list. *)
Definition Remove_value (m : outcome (bool * SkipList)) : outcome bool :=
  '(b, _) ← m; Ok b.

(** Every part of a list but the comparator it carries. *)
Definition structure (l : SkipList) : addr * nat * Rng * list Node :=
  (head_ l, max_height_ l, rnd_ l, arena l).

Definition observe (m : outcome (list (option bool) * SkipList))
  : outcome (list (option bool) * (addr * nat * Rng * list Node)) :=
  '(rs, l) ← m; Ok (rs, structure l).

(** A list laid out as the data model describes it: one node with key [k]
    and height 3, linked after the head at levels 0, 1 and 2. *)
Definition one_key_list (cmp : Comparator) (k : Key) : SkipList :=
  mkSkipList cmp 0 3 (Random 114514)
    [mkNode key0 kMaxHeight
            ([Some 1; Some 1; Some 1] ++ replicate (kMaxHeight - 3) None);
     mkNode k 3 [None; None; None]].

(** *** Notions used for the further properties *)

(** [a->next_[level]], when [a] is a node and its vector has that entry. *)
Definition link (m : list Node) (level : nat) (a : addr) : option ptr :=
  nd ← m !! a; next_ nd !! level.

(** [path m level p xs q]: following the links of [level] from the pointer
    [p] one meets the nodes [xs], in this order, and arrives at the pointer
    [q]. *)
Fixpoint path (m : list Node) (level : nat) (p : ptr) (xs : list addr) (q : ptr)
  : Prop :=
  match xs with
  | [] => p = q
  | a :: xs' => p = Some a ∧ ∃ nx, link m level a = Some nx ∧ path m level nx xs' q
  end.

(** [start->key < k], for the node at an address. *)
Definition klt (m : list Node) (k : Key) (a : addr) : bool :=
  match m !! a with
  | Some nd => key_lt (key nd) k
  | None => false
  end.

(** [n] calls of the iterator's [Next()]. *)
Fixpoint Nexts (n : nat) (l : SkipList) (it : Iterator) : outcome Iterator :=
  match n with
  | O => Ok it
  | S n' => it' ← Iterator_Next l it; Nexts n' l it'
  end.

End SkipList.

(** The length the source's comments give the vector: the node height. *)
Definition slots_doc : nat → nat := fun h => h.

(** The length the code gives it: [std::vector<Node*> next_;] is empty until
    something resizes it, and nothing does. *)
Definition slots_declared : nat → nat := fun _ => 0.

(** Neither the code nor its comments: one entry more than the height, which
    would make index [height] addressable.  It is used in examples only, to
    run the operations past their first out-of-range store. *)
Definition slots_spare : nat → nat := fun h => S h.

(** A generator for running examples: it replays a script of draws, and
    draws 1 once the script is used up. *)
Definition script_Random (script : list Z) : Z → list Z := fun _ => script.

Definition script_Uniform (r : list Z) (n : Z) : Z * list Z :=
  match r with
  | [] => (1 mod n, [])%Z
  | u :: r' => ((u mod n)%Z, r')
  end.

(** The lists of the examples: integer keys with their own [<] and [==],
    [Z.compare] for the comparator, the scripted generator. *)
Definition int_program (sl : nat → nat) (script : list Z) (cs : list call) :=
  program Z.ltb Z.eqb 0%Z (script_Random script) script_Uniform sl Z.compare cs.

Definition int_one_key : SkipList :=
  one_key_list 0%Z (script_Random []) Z.compare 5%Z.

(** The scenario of the specification: Insert 5, 1, 9, 3. *)
Definition scenario : list (call (Key:=Z)) :=
  [CallInsert 5%Z; CallInsert 1%Z; CallInsert 9%Z; CallInsert 3%Z].

(** [SeekToFirst()], [key()], and three times [Next()], [key()], on the list
    a program leaves: the keys read on the way. *)
Definition iterator_walk
    (m : outcome (list (option bool) * SkipList (Key:=Z) (Comparator:=Z → Z → comparison)
                                                 (Rng:=list Z)))
  : outcome (list Z) :=
  '(_, l) ← m;
  let it0 := SeekToFirst l (Iterator_ctor l) in
  k0 ← Iterator_key l it0;
  it1 ← Iterator_Next l it0; k1 ← Iterator_key l it1;
  it2 ← Iterator_Next l it1; k2 ← Iterator_key l it2;
  it3 ← Iterator_Next l it2; k3 ← Iterator_key l it3;
  Ok [k0; k1; k2; k3].

(** * Properties *)

(** ** The outcome monad *)

Lemma bind_Ok_inv {A B} (m : outcome A) (f : A → outcome B) (b : B) :
  m ≫= f = Ok b → ∃ a, m = Ok a ∧ f a = Ok b.
Proof. destruct m as [a| |]; simpl; intros H; try discriminate. eauto. Qed.

Lemma bind_not_ok_r {A B} (m : outcome A) (f : A → outcome B) :
  (∀ a, m = Ok a → is_ok (f a) = false) → is_ok (m ≫= f) = false.
Proof. destruct m as [a| |]; simpl; auto. Qed.

Lemma is_ok_false_Ok {A} (m : outcome A) (a : A) :
  is_ok m = false → m = Ok a → False.
Proof. by intros H ->. Qed.

Section SkipListFacts.

Context {Key : Type} (key_lt key_eq : Key → Key → bool) (key0 : Key).
Context {Comparator : Type}.
Context {Rng : Type} (Random : Z → Rng) (Uniform : Rng → Z → Z * Rng).
Context (slots : nat → nat).

Implicit Types (k : Key) (nd : Node (Key:=Key)) (m : list (Node (Key:=Key))).
Implicit Types (l : SkipList (Key:=Key) (Comparator:=Comparator) (Rng:=Rng)).
Implicit Types (cmp : Comparator) (cs : list (call (Key:=Key))).

(** ** Nodes *)

Lemma SetNext_null_replicate k h n i :
  SetNext (mkNode k h (replicate n None)) i None
  = if decide (i < n) then Ok (mkNode k h (replicate n None)) else Fault OutOfRange.
Proof.
  unfold SetNext; simpl. rewrite length_replicate.
  case_decide; [|done]. by rewrite insert_replicate.
Qed.

Lemma Node_ctor_loop k h n count i :
  for_loop i count (fun i nd => SetNext nd i None) (mkNode k h (replicate n None))
  = if decide (i + count ≤ n ∨ count = 0)
    then Ok (mkNode k h (replicate n None)) else Fault OutOfRange.
Proof.
  revert i. induction count as [|count IH]; intros i; simpl.
  - case_decide as H; [done|]. destruct H; by right.
  - rewrite SetNext_null_replicate. destruct (decide (i < n)) as [Hi|Hi]; simpl.
    + rewrite IH. clear IH. repeat case_decide; try done; exfalso; lia.
    + clear IH. case_decide as H; [exfalso; lia|done].
Qed.

(** The constructor succeeds exactly when the vector has room for the
    [height] stores, and then every entry is [nullptr]. *)
Lemma Node_ctor_spec k h :
  Node_ctor slots k h
  = if decide (h ≤ slots h)
    then Ok (mkNode k h (replicate (slots h) None)) else Fault OutOfRange.
Proof.
  unfold Node_ctor. rewrite Node_ctor_loop.
  repeat case_decide; try done; exfalso; lia.
Qed.

Lemma NewNode_Ok m k h a m' :
  NewNode slots m k h = Ok (a, m') →
  a = length m ∧ m' = m ++ [mkNode k h (replicate (slots h) None)] ∧ h ≤ slots h.
Proof.
  unfold NewNode. rewrite Node_ctor_spec. case_decide; simpl; [|done].
  intros [= <- <-]. done.
Qed.

(** ** RandomHeight *)

Lemma zero_run_le n r : zero_run Uniform n r ≤ n.
Proof.
  revert r. induction n as [|n IH]; intros r; simpl; [lia|].
  destruct (Uniform r 4) as [u r']. destruct (u =? 0)%Z; [|lia].
  specialize (IH r'). lia.
Qed.

Lemma RandomHeight_loop_spec fuel level r :
  level + fuel = S kMaxHeight → 1 ≤ fuel →
  RandomHeight_loop Uniform fuel level r
  = Ok (level + zero_run Uniform (fuel - 1) r,
        draws Uniform (S (zero_run Uniform (fuel - 1) r)) r).
Proof.
  revert level r. induction fuel as [|fuel IH]; intros level r Hsum Hfuel; [lia|].
  simpl. rewrite Nat.sub_0_r.
  destruct fuel as [|fuel].
  - simpl. destruct (Uniform r 4) as [u r'] eqn:E; simpl.
    replace (level <? kMaxHeight) with false
      by (symmetry; apply Nat.ltb_ge; lia).
    by rewrite andb_false_r, Nat.add_0_r.
  - cbn [zero_run draws]. destruct (Uniform r 4) as [u r'] eqn:E; simpl snd.
    replace (level <? kMaxHeight) with true
      by (symmetry; apply Nat.ltb_lt; unfold kMaxHeight in *; lia).
    rewrite andb_true_r. destruct (u =? 0)%Z.
    + rewrite IH by lia. simpl. rewrite Nat.sub_0_r.
      do 2 f_equal. lia.
    + by rewrite Nat.add_0_r.
Qed.

(** The loop returns for every generator: the height is 1 plus the number
    of leading draws equal to 0 among the first [kMaxHeight - 1], and the
    generator has made as many draws as the height. *)
Lemma RandomHeight_eval r :
  RandomHeight Uniform r
  = Ok (1 + zero_run Uniform (kMaxHeight - 1) r,
        draws Uniform (1 + zero_run Uniform (kMaxHeight - 1) r) r).
Proof.
  unfold RandomHeight. by rewrite RandomHeight_loop_spec by (unfold kMaxHeight; lia).
Qed.

Lemma RandomHeight_Ok r :
  ∃ h r', RandomHeight Uniform r = Ok (h, r') ∧ 1 ≤ h ≤ kMaxHeight.
Proof.
  eexists _, _. split; [apply RandomHeight_eval|].
  pose proof (zero_run_le (kMaxHeight - 1) r). unfold kMaxHeight in *. lia.
Qed.

(** ** Stores into the arena *)

Lemma node_SetNext_Ok m a i x m' :
  node_SetNext m a i x = Ok m' →
  ∃ nd, m !! a = Some nd ∧ i < length (next_ nd)
        ∧ m' = <[a:=mkNode (key nd) (height nd) (<[i:=x]> (next_ nd))]> m.
Proof.
  unfold node_SetNext, load, SetNext. intros H.
  destruct (m !! a) as [nd|] eqn:E; simpl in H; [|done].
  case_decide; simpl in H; [|done]. exists nd. by inversion H.
Qed.

Lemma node_SetNext_length m a i x m' :
  node_SetNext m a i x = Ok m' → length m' = length m.
Proof.
  intros (nd & _ & _ & ->)%node_SetNext_Ok. by rewrite length_insert.
Qed.

Lemma node_SetNext_lookup m a i x m' b nd' :
  node_SetNext m a i x = Ok m' → m' !! b = Some nd' →
  ∃ nd, m !! b = Some nd ∧ key nd' = key nd ∧ height nd' = height nd
        ∧ (∀ j, j ≠ i → next_ nd' !! j = next_ nd !! j)
        ∧ (next_ nd' !! i = next_ nd !! i ∨ (b = a ∧ next_ nd' !! i = Some x)).
Proof.
  intros (nd & Ha & Hi & ->)%node_SetNext_Ok Hb.
  destruct (decide (a = b)) as [->|Hne].
  - rewrite list_lookup_insert_eq in Hb by by eapply lookup_lt_Some.
    inversion Hb; subst; simpl. exists nd. split_and!; try done.
    + intros j Hj. by rewrite list_lookup_insert_ne.
    + right. split; [done|]. by rewrite list_lookup_insert_eq.
  - rewrite list_lookup_insert_ne in Hb by done.
    exists nd'. split_and!; auto.
Qed.

Lemma node_SetNext_keys m a i x m' :
  node_SetNext m a i x = Ok m' → key <$> m' = key <$> m.
Proof.
  intros (nd & Ha & _ & ->)%node_SetNext_Ok.
  rewrite list_fmap_insert. simpl. apply list_insert_id.
  by rewrite list_lookup_fmap, Ha.
Qed.

Lemma node_SetNext_level0 m a i x m' :
  1 ≤ i → node_SetNext m a i x = Ok m' →
  level0_unlinked m → level0_unlinked m'.
Proof.
  intros Hi H Hm b nd' p Hb Hp.
  destruct (node_SetNext_lookup _ _ _ _ _ _ _ H Hb) as (nd & Hnd & _ & _ & Hj & _).
  rewrite Hj in Hp by lia. eauto.
Qed.

Lemma node_SetNext_heights m a i x m' :
  node_SetNext m a i x = Ok m' →
  (∀ b nd, m !! S b = Some nd → height nd = 1) →
  (∀ b nd, m' !! S b = Some nd → height nd = 1).
Proof.
  intros H Hm b nd' Hb.
  destruct (node_SetNext_lookup _ _ _ _ _ _ _ H Hb) as (nd & Hnd & _ & -> & _).
  eauto.
Qed.

(** ** The descent *)

Lemma array_store_Ok (pre : list (option addr)) i x pre' :
  array_store pre i x = Ok pre' → pre' = <[i:=Some x]> pre.
Proof. unfold array_store. case_decide; [|done]. by intros [= <-]. Qed.

(** The descent from [level] writes [preNode] at the levels 1 .. [level]
    only. *)
Lemma descend_preNode_above m k level start pre start' pre' i :
  descend key_lt m k level start pre = Ok (start', pre') →
  level < i → pre' !! i = pre !! i.
Proof.
  revert start pre. induction level as [|level IH]; intros start pre H Hi.
  - simpl in H. by inversion H.
  - cbn [descend] in H. apply bind_Ok_inv in H as (s1 & _ & H).
    apply bind_Ok_inv in H as (pre1 & Hst%array_store_Ok & H).
    rewrite (IH _ _ H) by lia. subst pre1.
    apply list_lookup_insert_ne. lia.
Qed.

Lemma array_load_fresh_above m k level start start' pre i :
  descend key_lt m k level start preNode_fresh = Ok (start', pre) →
  level < i → is_ok (array_load pre i) = false.
Proof.
  intros H Hi. unfold array_load.
  rewrite (descend_preNode_above _ _ _ _ _ _ _ _ H Hi).
  unfold preNode_fresh.
  destruct (decide (i < kMaxHeight)) as [Hlt|Hge].
  - by rewrite lookup_replicate_2.
  - rewrite lookup_ge_None_2; [done|]. rewrite length_replicate. lia.
Qed.

(** The walk stops on the node it started from, or it has followed a link
    that leaves that node. *)
Lemma walk_Ok fuel m k level start p :
  walk key_lt fuel m k level start = Ok p →
  p = start ∨ ∃ a, node_Next m start level = Ok (Some a).
Proof.
  destruct fuel as [|fuel]; [done|]. cbn [walk]. intros H.
  apply bind_Ok_inv in H as (c & E & H). unfold walk_cond in E.
  apply bind_Ok_inv in E as ([a|] & E1 & E2).
  - right. eauto.
  - left. inversion E2; subst c. by inversion H.
Qed.

(** ** The fuel of the walk *)

Lemma walk_cond_valid m k level a c :
  walk_cond key_lt m k level a = Ok c → a < length m.
Proof.
  unfold walk_cond, node_Next, load.
  destruct (m !! a) as [nd|] eqn:E; [|done]. intros _. by eapply lookup_lt_Some.
Qed.

Lemma moves_snoc m k level t a b c :
  moves key_lt m k level t a b → walk_cond key_lt m k level b = Ok (Some c) →
  moves key_lt m k level (S t) a c.
Proof.
  revert a. induction t as [|t IH]; simpl.
  - intros a -> H. eauto.
  - intros a (d & Hd & Hm) H. exists d. split; [done|]. by apply IH.
Qed.

Lemma walk_moves m k level t a b n :
  moves key_lt m k level t a b →
  walk key_lt (t + n) m k level a = walk key_lt n m k level b.
Proof.
  revert a. induction t as [|t IH]; simpl; intros a.
  - by intros ->.
  - intros (c & Hc & Hm). rewrite Hc. simpl. by apply IH.
Qed.

Lemma walk_short m k level t a b n :
  moves key_lt m k level t a b → n ≤ t → walk key_lt n m k level a = Diverge.
Proof.
  revert a n. induction t as [|t IH]; intros a n Hm Hn.
  - by assert (n = 0) as -> by lia.
  - destruct n as [|n]; [done|]. simpl in Hm. destruct Hm as (c & Hc & Hm).
    cbn [walk]. rewrite Hc. simpl. apply (IH c); [done|lia].
Qed.

(** A walk that comes back to a node it has left goes round for ever. *)
Lemma walk_cycle m k level t a n :
  moves key_lt m k level (S t) a a → walk key_lt n m k level a = Diverge.
Proof.
  intros Hm. induction n as [n IH] using lt_wf_ind.
  destruct (decide (n ≤ S t)) as [Hle|Hgt].
  - by eapply walk_short.
  - replace n with (S t + (n - S t)) by lia.
    rewrite (walk_moves _ _ _ _ _ _ _ Hm). apply IH. lia.
Qed.

Lemma walk_fuel_seen m k level n :
  ∀ (seen : list nat) a r,
    NoDup seen →
    (∀ b, b ∈ seen → b < length m ∧ ∃ t, moves key_lt m k level (S t) b a) →
    walk key_lt n m k level a = r → r ≠ Diverge →
    walk key_lt (S (length m) - length seen) m k level a = r.
Proof.
  induction n as [|n IH]; intros seen a r Hnd Hseen Hw Hr; [by subst|].
  assert (length seen ≤ length m) as Hlen.
  { rewrite <- (length_seq (length m) 0). apply submseteq_length.
    apply NoDup_submseteq; [done|]. intros b Hb. apply elem_of_seq.
    destruct (Hseen b Hb) as [? _]. lia. }
  replace (S (length m) - length seen) with (S (length m - length seen)) by lia.
  cbn [walk] in *.
  destruct (walk_cond key_lt m k level a) as [[b|]| |] eqn:Hc; simpl in *;
    [|done..].
  assert (a ∉ seen) as Hnew.
  { intros Hin. destruct (Hseen a Hin) as [_ [t Ht]]. apply Hr. rewrite <- Hw.
    change (walk key_lt n m k level b)
      with (c ← Ok (Some b); match c with
                            | Some a' => walk key_lt n m k level a'
                            | None => Ok a
                            end).
    rewrite <- Hc. change (walk key_lt (S n) m k level a = Diverge).
    by eapply walk_cycle. }
  replace (length m - length seen) with (S (length m) - length (a :: seen))
    by (simpl; lia).
  apply IH; [by constructor| |done..].
  intros c [->|Hin]%elem_of_cons.
  - split; [by eapply walk_cond_valid|]. exists 0. simpl. eauto.
  - destruct (Hseen c Hin) as [Hv [t Ht]]. split; [done|].
    exists (S t). by eapply moves_snoc.
Qed.

(** X12. The fuel the callers give is enough for every walk that ends: a
    [while] loop of the searches that exits at all has done so within as many
    rounds as there are nodes, with the same result, so [Diverge] stands for a
    loop that does not exit. *)
Theorem walk_fuel_enough m k level n a r :
  walk key_lt n m k level a = r → r ≠ Diverge →
  walk key_lt (S (length m)) m k level a = r.
Proof.
  intros Hw Hr.
  pose proof (walk_fuel_seen m k level n [] a r) as H. simpl in H.
  apply H; [constructor| |done..].
  intros b Hb. by apply elem_of_nil in Hb.
Qed.

(** ** Remove *)

(** [Remove] has one [return], and it gives [false] and an untouched
    list. *)
Lemma Remove_Ok l k b l' :
  Remove key_lt key_eq l k = Ok (b, l') → b = false ∧ l' = l.
Proof.
  unfold Remove. intros H.
  apply bind_Ok_inv in H as ([start pre] & _ & H).
  apply bind_Ok_inv in H as (start0 & _ & H).
  apply bind_Ok_inv in H as ([|] & _ & H).
  - by inversion H.
  - by apply bind_Ok_inv in H as (? & _ & ?).
Qed.

Lemma Remove_Ok_found l k b l' :
  Remove key_lt key_eq l k = Ok (b, l') →
  ∃ start pre a nd,
    descend key_lt (arena l) k (max_height_ l) (head_ l) preNode_fresh
    = Ok (start, pre)
    ∧ node_Next (arena l) start 0 = Ok (Some a)
    ∧ arena l !! a = Some nd ∧ key_eq (key nd) k = true.
Proof.
  unfold Remove. intros H.
  apply bind_Ok_inv in H as ([start pre] & Hd & H).
  apply bind_Ok_inv in H as (start0 & Hs0 & H).
  apply bind_Ok_inv in H as ([|] & Hf & H);
    [|by apply bind_Ok_inv in H as (? & _ & ?)].
  destruct start0 as [a|]; [|done]. simpl in Hf. unfold load in Hf.
  destruct (arena l !! a) as [nd|] eqn:E; [|done]. simpl in Hf.
  inversion Hf. by exists start, pre, a, nd.
Qed.

(** ... and the [return] is reached only when the level-0 link after the
    search position is not null. *)
Lemma Remove_level0_unlinked l k :
  level0_unlinked (arena l) → is_ok (Remove key_lt key_eq l k) = false.
Proof.
  intros Hl. unfold Remove.
  apply bind_not_ok_r; intros [start pre] _.
  apply bind_not_ok_r; intros start0 Hs0.
  assert (start0 = None) as ->.
  { unfold node_Next, load in Hs0.
    destruct (arena l !! start) as [nd|] eqn:E; simpl in Hs0; [|done].
    unfold Next in Hs0. destruct (next_ nd !! 0) as [p|] eqn:Ep; [|done].
    inversion Hs0; subst. eauto. }
  simpl. by destruct (for_loop _ _ _ _).
Qed.

(** ** Contains *)

Lemma Contains_level0_unlinked l k :
  level0_unlinked (arena l) → returned true (Contains key_lt key_eq l k) = false.
Proof.
  intros Hl. unfold Contains.
  destruct (descend_ro _ _ _ _ _) as [start| |]; simpl; [|done..].
  unfold node_Next, load.
  destruct (arena l !! start) as [nd|] eqn:E; simpl; [|done].
  unfold Next. destruct (next_ nd !! 0) as [p|] eqn:Ep; simpl; [|done].
  by rewrite (Hl _ _ _ E Ep).
Qed.

(** ** Insert *)

Lemma descend_one m k start pre start' pre' :
  descend key_lt m k 1 start pre = Ok (start', pre') →
  walk key_lt (S (length m)) m k 1 start = Ok start'
  ∧ pre' = <[1:=Some start']> pre ∧ 1 < length pre.
Proof.
  cbn [descend]. intros H.
  apply bind_Ok_inv in H as (s1 & Hw & H).
  apply bind_Ok_inv in H as (pre1 & Hst & H).
  inversion H; subst. split; [done|]. split; [by apply array_store_Ok|].
  unfold array_store in Hst. by case_decide.
Qed.

Lemma Insert_link_Ok pre k i m m' :
  Insert_link slots pre k i m = Ok m' →
  ∃ p nx m2,
    i ≤ slots i ∧ array_load pre i = Ok p
    ∧ node_Next (m ++ [mkNode k i (replicate (slots i) None)]) p i = Ok nx
    ∧ node_SetNext (m ++ [mkNode k i (replicate (slots i) None)]) (length m) i nx
      = Ok m2
    ∧ node_SetNext m2 p i (Some (length m)) = Ok m'.
Proof.
  unfold Insert_link. intros H.
  apply bind_Ok_inv in H as ([a m1] & (-> & -> & Hs)%NewNode_Ok & H).
  apply bind_Ok_inv in H as (p & Hp & H).
  apply bind_Ok_inv in H as (nx & Hnx & H).
  apply bind_Ok_inv in H as (m2 & Hm2 & H).
  rewrite Hp in H. simpl in H. by exists p, nx, m2.
Qed.

(** On a list with [max_height_] 1 whose descent filled [preNode], the
    insertion part returns only through one round of the link loop at
    level 1: a draw above 1 runs into the [preNode] entries that were never
    assigned. *)
Lemma Insert_node_Ok l k start pre l' :
  max_height_ l = 1 →
  descend key_lt (arena l) k (max_height_ l) (head_ l) preNode_fresh
    = Ok (start, pre) →
  Insert_node Uniform slots l k pre = Ok l' →
  ∃ r m', l' = mkSkipList (compare_ l) (head_ l) 1 r m'
          ∧ Insert_link slots pre k 1 (arena l) = Ok m'.
Proof.
  intros Hmax Hdesc. unfold Insert_node. intros H.
  apply bind_Ok_inv in H as ([rh r] & Hrh & H). simpl in H.
  rewrite Hmax in H.
  apply bind_Ok_inv in H as (l2 & Hl2 & H).
  apply bind_Ok_inv in H as (m' & Hloop & H). inversion H; subst l'; clear H.
  destruct (decide (1 < rh)) as [Hlt|Hge].
  - exfalso. apply bind_Ok_inv in Hl2 as (m1 & _ & Hl2).
    inversion Hl2; subst l2; clear Hl2. simpl in Hloop.
    destruct rh as [|[|rh]]; [lia..|].
    cbn [for_loop] in Hloop.
    apply bind_Ok_inv in Hloop as (m2 & _ & Hloop).
    apply bind_Ok_inv in Hloop as (m3 & Hlink & _).
    apply Insert_link_Ok in Hlink as (p & _ & _ & _ & Hp & _).
    eapply is_ok_false_Ok; [|exact Hp].
    eapply array_load_fresh_above; [exact Hdesc|lia].
  - inversion Hl2; subst l2; clear Hl2. simpl in *. rewrite Hmax in *.
    cbn [for_loop] in Hloop.
    apply bind_Ok_inv in Hloop as (m1 & Hlink & Hloop). inversion Hloop; subst.
    exists r, m'. split; [|done]. unfold with_arena, with_rnd; simpl.
    by rewrite Hmax.
Qed.

(** What one round of the link loop at level 1 leaves behind. *)
Lemma Insert_link_one pre k m m' :
  Insert_link slots pre k 1 m = Ok m' →
  length m' = S (length m)
  ∧ key <$> m' = (key <$> m) ++ [k]
  ∧ (level0_unlinked m → level0_unlinked m')
  ∧ ((∀ b nd, m !! S b = Some nd → height nd = 1) →
     (∀ b nd, m' !! S b = Some nd → height nd = 1))
  ∧ (is_Some (m !! 0) → is_Some (m' !! 0)).
Proof.
  intros (p & nx & m2 & Hs & Hp & Hnx & Hm2 & Hm')%Insert_link_Ok.
  set (new := mkNode k 1 (replicate (slots 1) None)) in *.
  split_and!.
  - rewrite (node_SetNext_length _ _ _ _ _ Hm'), (node_SetNext_length _ _ _ _ _ Hm2).
    rewrite length_app. simpl. lia.
  - rewrite (node_SetNext_keys _ _ _ _ _ Hm'), (node_SetNext_keys _ _ _ _ _ Hm2).
    by rewrite fmap_app.
  - intros Hm.
    eapply node_SetNext_level0; [|exact Hm'|]; [lia|].
    eapply node_SetNext_level0; [|exact Hm2|]; [lia|].
    intros a nd q Ha Hq. apply lookup_app_Some in Ha as [Ha|[_ Ha]]; [eauto|].
    apply list_lookup_singleton_Some in Ha as [_ <-]. simpl in Hq.
    apply lookup_replicate in Hq as [? _]. done.
  - intros Hm.
    eapply node_SetNext_heights; [exact Hm'|].
    eapply node_SetNext_heights; [exact Hm2|].
    intros b nd Hb. apply lookup_app_Some in Hb as [Hb|[_ Hb]]; [eauto|].
    apply list_lookup_singleton_Some in Hb as [_ <-]. done.
  - intros [hd Hhd]. apply lookup_lt_is_Some.
    rewrite (node_SetNext_length _ _ _ _ _ Hm'), (node_SetNext_length _ _ _ _ _ Hm2).
    rewrite length_app. simpl. lia.
Qed.

Lemma Insert_Ok l k l' :
  built l → Insert key_lt key_eq Uniform slots l k = Ok l' →
  ∃ start pre r m',
    descend key_lt (arena l) k 1 0 preNode_fresh = Ok (start, pre)
    ∧ l' = mkSkipList (compare_ l) 0 1 r m'
    ∧ Insert_link slots pre k 1 (arena l) = Ok m'.
Proof.
  intros (Hhd & Hmax & Hsome & Hl0 & Hh). unfold Insert. intros H.
  apply bind_Ok_inv in H as ([start pre] & Hdesc & H).
  apply bind_Ok_inv in H as (start0 & Hs0 & H).
  apply bind_Ok_inv in H as (dup & Hdup & H).
  assert (start0 = None) as ->.
  { unfold node_Next, load in Hs0.
    destruct (arena l !! start) as [nd|] eqn:E; simpl in Hs0; [|done].
    unfold Next in Hs0. destruct (next_ nd !! 0) as [q|] eqn:Eq; [|done].
    inversion Hs0; subst. eauto. }
  simpl in Hdup. inversion Hdup; subst dup.
  destruct (Insert_node_Ok _ _ _ _ _ Hmax Hdesc H) as (r & m' & -> & Hlink).
  rewrite Hmax, Hhd in Hdesc. rewrite Hhd. by exists start, pre, r, m'.
Qed.

(** Every [Insert] that returns keeps the list in the shape [built], and
    has allocated one more node carrying the key. *)
Lemma Insert_built l k l' :
  built l → Insert key_lt key_eq Uniform slots l k = Ok l' →
  built l' ∧ key <$> arena l' = (key <$> arena l) ++ [k].
Proof.
  intros Hb H. destruct (Insert_Ok _ _ _ Hb H) as (start & pre & r & m' & _ & -> & Hlink).
  destruct Hb as (Hhd & Hmax & Hsome & Hl0 & Hh).
  destruct (Insert_link_one _ _ _ _ Hlink) as (_ & Hk & H0 & H1 & H2).
  split; [|done]. unfold built; simpl. split_and!; auto.
  by apply H1.
Qed.

(** ... and the head's level-1 link is not null afterwards. *)
Lemma Insert_head_link l k l' :
  built l → Insert key_lt key_eq Uniform slots l k = Ok l' →
  ∃ hd x, arena l' !! 0 = Some hd ∧ next_ hd !! 1 = Some (Some x).
Proof.
  intros Hb H. destruct (Insert_Ok _ _ _ Hb H) as (start & pre & r & m' & Hdesc & -> & Hlink).
  simpl. apply descend_one in Hdesc as (Hwalk & -> & Hlen).
  apply Insert_link_Ok in Hlink as (p & nx & m2 & Hs & Hp & Hnx & Hm2 & Hm').
  unfold array_load in Hp. rewrite list_lookup_insert_eq in Hp by done.
  inversion Hp; subst p; clear Hp.
  destruct Hb as (_ & _ & [hd Hhd] & _).
  pose proof (lookup_lt_Some _ _ _ Hhd) as Hlt.
  apply walk_Ok in Hwalk as [->|[a Ha]].
  - apply node_SetNext_Ok in Hm' as (nd & Hnd & Hi & ->).
    eexists _, _. rewrite list_lookup_insert_eq by by eapply lookup_lt_Some.
    split; [done|]. simpl. by rewrite list_lookup_insert_eq.
  - assert (∃ hd1, m2 !! 0 = Some hd1 ∧ next_ hd1 !! 1 = Some (Some a))
      as (hd1 & Hhd1 & Hn1).
    { apply node_SetNext_Ok in Hm2 as (nd & Hnd & Hi & ->).
      rewrite list_lookup_insert_ne by lia.
      rewrite lookup_app_l by done. exists hd. split; [done|].
      unfold node_Next, load in Ha. rewrite Hhd in Ha. simpl in Ha.
      unfold Next in Ha. by destruct (next_ hd !! 1) as [q|]; inversion Ha. }
    apply node_SetNext_Ok in Hm' as (nd & Hnd & Hi & ->).
    destruct (decide (start = 0)) as [->|Hne].
    + eexists _, _. rewrite list_lookup_insert_eq by by eapply lookup_lt_Some.
      split; [done|]. simpl. by rewrite list_lookup_insert_eq.
    + exists hd1, a. by rewrite list_lookup_insert_ne.
Qed.

(** ** Lists built by the public operations *)

Lemma SkipList_ctor_Ok cmp l :
  SkipList_ctor key0 Random slots cmp = Ok l →
  l = mkSkipList cmp 0 1 (Random 114514)
                 [mkNode key0 kMaxHeight (replicate (slots kMaxHeight) None)]
  ∧ kMaxHeight ≤ slots kMaxHeight.
Proof.
  unfold SkipList_ctor. intros H.
  apply bind_Ok_inv in H as ([a m] & (-> & -> & Hs)%NewNode_Ok & H).
  by inversion H.
Qed.

Lemma SkipList_ctor_built cmp l :
  SkipList_ctor key0 Random slots cmp = Ok l → built l.
Proof.
  intros [-> Hs]%SkipList_ctor_Ok. unfold built; simpl. split_and!; eauto.
  - intros a nd p Ha Hp. apply list_lookup_singleton_Some in Ha as [_ <-].
    simpl in Hp. by apply lookup_replicate in Hp as [? _].
  - intros a nd Ha. by rewrite lookup_nil in Ha.
Qed.

Lemma do_call_built l c r l' :
  built l → do_call key_lt key_eq Uniform slots l c = Ok (r, l') → built l'.
Proof.
  intros Hb. destruct c as [k|k|k]; simpl; intros H.
  - apply bind_Ok_inv in H as (l1 & Hi & H). inversion H; subst.
    by apply (Insert_built _ _ _ Hb Hi).
  - apply bind_Ok_inv in H as ([b l1] & Hr & H). inversion H; subst.
    by apply Remove_Ok in Hr as [_ ->].
  - apply bind_Ok_inv in H as (b & _ & H). by inversion H; subst.
Qed.

Lemma do_calls_built cs l rs l' :
  built l → do_calls key_lt key_eq Uniform slots l cs = Ok (rs, l') → built l'.
Proof.
  revert l rs. induction cs as [|c cs IH]; intros l rs Hb H.
  - simpl in H. by inversion H; subst.
  - cbn [do_calls] in H.
    apply bind_Ok_inv in H as ([r l1] & Hc & H).
    apply bind_Ok_inv in H as ([rs1 l2] & Hcs & H). inversion H; subst.
    eapply IH; [|exact Hcs]. by eapply do_call_built.
Qed.

(** Whatever the calls and whatever the length of the vectors, a list that
    the public operations hand back has the shape [built]. *)
Lemma program_built cmp cs rs l :
  program key_lt key_eq key0 Random Uniform slots cmp cs = Ok (rs, l) → built l.
Proof.
  unfold program. intros H. apply bind_Ok_inv in H as (l0 & Hc & H).
  eapply do_calls_built; [|exact H]. by eapply SkipList_ctor_built.
Qed.

Lemma built_level0_empty l : built l → level_chain l 0 = [].
Proof.
  intros (Hhd & _ & [hd Hsome] & Hl0 & _). unfold level_chain.
  rewrite Hhd, Hsome. destruct (next_ hd !! 0) as [p|] eqn:E; simpl.
  - rewrite (Hl0 _ _ _ Hsome E). by destruct (length (arena l)).
  - by destruct (length (arena l)).
Qed.

(** ** A list fresh from the constructor, vectors as long as documented *)

Lemma SkipList_ctor_doc cmp :
  SkipList_ctor key0 Random slots_doc cmp = Ok (fresh_list key0 Random cmp).
Proof. reflexivity. Qed.

(** [Contains] starts its descent at index [kMaxHeight] of the head, one
    past the last of its twelve entries. *)
Lemma Contains_fresh_doc cmp k :
  Contains key_lt key_eq (fresh_list key0 Random cmp) k = Fault OutOfRange.
Proof. reflexivity. Qed.

(** [Remove] finds nothing after the head and then reads [start->Next(1)]
    through the null [start]. *)
Lemma Remove_fresh_doc cmp k :
  Remove key_lt key_eq (fresh_list key0 Random cmp) k = Fault NullDeref.
Proof. reflexivity. Qed.

(** [Insert] stores at index [i] of a node it has just created with height
    [i], or, when the draw is 12, at index 12 of the head. *)
Lemma Insert_fresh_doc cmp k :
  Insert key_lt key_eq Uniform slots_doc (fresh_list key0 Random cmp) k
  = Fault OutOfRange.
Proof.
  change (Insert key_lt key_eq Uniform slots_doc (fresh_list key0 Random cmp) k)
    with (Insert_node Uniform slots_doc (fresh_list key0 Random cmp) k
            (<[1:=Some 0]> preNode_fresh)).
  unfold Insert_node.
  destruct (RandomHeight_Ok (rnd_ (fresh_list key0 Random cmp)))
    as (h & r' & -> & Hlo & Hhi).
  unfold kMaxHeight in Hhi.
  do 13 (destruct h as [|h]; [first [lia|reflexivity]|]). lia.
Qed.

Lemma program_Insert_first_doc cmp k cs :
  program key_lt key_eq key0 Random Uniform slots_doc cmp (CallInsert k :: cs)
  = Fault OutOfRange.
Proof.
  unfold program. rewrite SkipList_ctor_doc. cbn [mbind outcome_bind do_calls do_call].
  by rewrite Insert_fresh_doc.
Qed.

(** ** Consequences for the single operations *)

Lemma SeekToFirst_Valid l (it : Iterator) :
  Valid (SeekToFirst l it) = true ∧ node_ (SeekToFirst l it) = Some (head_ l).
Proof. done. Qed.

Lemma Remove_value_never_true l k :
  returned true (Remove_value (Remove key_lt key_eq l k)) = false.
Proof.
  destruct (Remove key_lt key_eq l k) as [[b l']| |] eqn:E; [|done..].
  by apply Remove_Ok in E as [-> _].
Qed.

Lemma program_Remove cmp cs rs l k :
  program key_lt key_eq key0 Random Uniform slots cmp cs = Ok (rs, l) →
  is_ok (Remove key_lt key_eq l k) = false.
Proof.
  intros (_ & _ & _ & Hl0 & _)%program_built. by apply Remove_level0_unlinked.
Qed.

(** On a list fresh from the constructor, whatever the length of the
    head's vector. *)
Lemma Remove_after_ctor cmp l k :
  SkipList_ctor key0 Random slots cmp = Ok l →
  Remove key_lt key_eq l k = Fault NullDeref.
Proof.
  intros [-> Hs]%SkipList_ctor_Ok.
  destruct (slots kMaxHeight) as [|[|n]]; [unfold kMaxHeight in Hs; lia..|].
  reflexivity.
Qed.

Lemma program_Contains cmp cs rs l k :
  program key_lt key_eq key0 Random Uniform slots cmp cs = Ok (rs, l) →
  returned true (Contains key_lt key_eq l k) = false.
Proof.
  intros (_ & _ & _ & Hl0 & _)%program_built. by apply Contains_level0_unlinked.
Qed.

Lemma Insert_breaks_nesting l k l' :
  built l → Insert key_lt key_eq Uniform slots l k = Ok l' →
  level_chain l' 0 = [] ∧ level_chain l' 1 ≠ []
  ∧ ¬ structure_ok key_lt key_eq l'.
Proof.
  intros Hb H.
  destruct (Insert_built _ _ _ Hb H) as [Hb' _].
  destruct (Insert_head_link _ _ _ Hb H) as (hd & x & Hhd & Hx).
  pose proof (built_level0_empty _ Hb') as H0.
  assert (level_chain l' 1 ≠ []) as H1.
  { unfold level_chain. destruct Hb' as (-> & _). rewrite Hhd, Hx. simpl.
    apply lookup_lt_Some in Hhd. by destruct (length (arena l')); [lia|]. }
  split_and!; [done..|].
  intros (_ & _ & Hn). specialize (Hn 0). rewrite H0 in Hn.
  by apply sublist_nil_r in Hn.
Qed.


End SkipListFacts.

(** * The claims *)

Section Claims.

Context {Key : Type} (key_lt key_eq : Key → Key → bool) (key0 : Key).
Context {Comparator : Type}.
Context {Rng : Type} (Random : Z → Rng) (Uniform : Rng → Z → Z * Rng).
Context (slots : nat → nat).

Implicit Types (k : Key) (nd : Node (Key:=Key)).
Implicit Types (l : SkipList (Key:=Key) (Comparator:=Comparator) (Rng:=Rng)).
Implicit Types (cmp : Comparator) (cs : list (call (Key:=Key))).

(** C1. [Remove] is claimed to return true when the key was found and
    removed and false when it is absent.  The code has a single [return],
    [return false], taken when the key IS found, so no call returns true
    (first part); in the scenario of the specification, the first [Insert]
    already stores out of range when the vectors have the documented length
    (second part); on every list the operations hand back, with vectors of
    any length, [Remove] does not return at all (third part), and on the
    empty list it dereferences the null successor (fourth part).  The last
    part runs the scenario on vectors with one spare entry: the four calls of
    [Insert] return and the first [Remove(5)] dereferences null. *)
Theorem Remove_never_returns_true :
  (∀ l k, returned true (Remove_value (Remove key_lt key_eq l k)) = false)
  ∧ (∀ cmp k cs,
       program key_lt key_eq key0 Random Uniform slots_doc cmp (CallInsert k :: cs)
       = Fault OutOfRange)
  ∧ (∀ cmp cs rs l k,
       program key_lt key_eq key0 Random Uniform slots cmp cs = Ok (rs, l) →
       is_ok (Remove key_lt key_eq l k) = false)
  ∧ (∀ cmp k,
       Remove key_lt key_eq (fresh_list key0 Random cmp) k = Fault NullDeref)
  ∧ observe (int_program slots_spare [1%Z; 1%Z; 1%Z; 1%Z]
                         (scenario ++ [CallRemove 5%Z; CallRemove 5%Z]))
    = Fault NullDeref.
Proof.
  split_and!.
  - apply Remove_value_never_true.
  - apply program_Insert_first_doc.
  - apply program_Remove.
  - apply Remove_fresh_doc.
  - vm_compute. reflexivity.
Qed.

(** C2. For an absent key [Remove] is claimed to return false and to leave
    every link as it was.  On the empty list, where every key is absent, the
    call ends in a null dereference: the search leaves [start] null, the test
    for a found key fails, and the loop that follows reads
    [start->Next(1)] (first part for the documented vector length, second
    part for any length).  On no list does [Remove] return for an absent
    key: when it returns, the node after the search position has a key equal
    to the one asked for (third part). *)
Theorem Remove_absent_key_faults :
  (∀ cmp k,
     program key_lt key_eq key0 Random Uniform slots_doc cmp [CallRemove k]
     = Fault NullDeref)
  ∧ (∀ cmp l k,
       SkipList_ctor key0 Random slots cmp = Ok l →
       Remove key_lt key_eq l k = Fault NullDeref)
  ∧ (∀ l k b l',
       Remove key_lt key_eq l k = Ok (b, l') →
       ∃ start pre a nd,
         descend key_lt (arena l) k (max_height_ l) (head_ l) preNode_fresh
         = Ok (start, pre)
         ∧ node_Next (arena l) start 0 = Ok (Some a)
         ∧ arena l !! a = Some nd ∧ key_eq (key nd) k = true).
Proof.
  split_and!.
  - intros cmp k. unfold program. rewrite SkipList_ctor_doc.
    cbn [mbind outcome_bind do_calls do_call]. by rewrite Remove_fresh_doc.
  - apply Remove_after_ctor.
  - apply Remove_Ok_found.
Qed.

(** C3. Inserting distinct keys and then asking [Contains] for each is
    claimed to give true.  With the single key [k]: when the vectors have the
    documented length the [Insert] stores out of range (first part); and
    whatever their length, [Contains] never returns true on a list the
    operations hand back, because it ends by reading a level-0 link and
    [Insert] links the levels from 1 upwards only (second part; the third
    part runs it on vectors with one spare entry). *)
Theorem Contains_after_Insert_not_true :
  (∀ cmp k,
     program key_lt key_eq key0 Random Uniform slots_doc cmp
             [CallInsert k; CallContains k] = Fault OutOfRange)
  ∧ (∀ cmp cs rs l k,
       program key_lt key_eq key0 Random Uniform slots cmp cs = Ok (rs, l) →
       returned true (Contains key_lt key_eq l k) = false)
  ∧ (∃ s, int_program slots_spare [1%Z] [CallInsert 5%Z; CallContains 5%Z]
          = Ok ([None; Some false], s)).
Proof.
  split_and!.
  - intros. apply program_Insert_first_doc.
  - apply program_Contains.
  - eexists. vm_compute. reflexivity.
Qed.

(** C4. After any sequence of calls the levels are claimed to be nested:
    the nodes of level L are among those of level L-1, down to level 0.
    With the documented vector length the first [Insert] stores out of range
    (first part).  Whatever the length, after every [Insert] that returns
    the head has a successor at level 1 and none at level 0, so the level-1
    sequence is not a subsequence of the level-0 sequence (second part; the
    third part shows it after [Insert(5)] on vectors with one spare
    entry). *)
Theorem Insert_leaves_level0_empty :
  (∀ cmp k,
     program key_lt key_eq key0 Random Uniform slots_doc cmp [CallInsert k]
     = Fault OutOfRange)
  ∧ (∀ cmp cs rs l k l',
       program key_lt key_eq key0 Random Uniform slots cmp cs = Ok (rs, l) →
       Insert key_lt key_eq Uniform slots l k = Ok l' →
       level_chain l' 0 = [] ∧ level_chain l' 1 ≠ []
       ∧ ¬ structure_ok key_lt key_eq l')
  ∧ (∃ s, int_program slots_spare [1%Z] [CallInsert 5%Z] = Ok ([None], s)
          ∧ level_chain s 1 = [1] ∧ level_chain s 0 = []).
Proof.
  split_and!.
  - intros. apply program_Insert_first_doc.
  - intros cmp cs rs l k l' Hb%program_built H. by eapply Insert_breaks_nesting.
  - eexists. split; [vm_compute; reflexivity|]. split; vm_compute; reflexivity.
Qed.


(** C6. No operation is claimed to index a node's vector at or beyond the
    height the node was created with.  If the vector is left as declared,
    empty, the constructor of the head already stores out of range (first
    part).  With vectors as long as documented, on a fresh list: [Contains]
    reads index 12 of the head, created with height 12, and [Insert] stores at
    index [i] of a node created with height [i] (or at index 12 of the head);
    both calls end there. *)
Theorem fresh_list_out_of_range :
  (∀ cmp, SkipList_ctor key0 Random slots_declared cmp = Fault OutOfRange)
  ∧ (∀ cmp, SkipList_ctor key0 Random slots_doc cmp = Ok (fresh_list key0 Random cmp))
  ∧ (∀ cmp hd, arena (fresh_list key0 Random cmp) !! 0 = Some hd →
               height hd = kMaxHeight ∧ length (next_ hd) = kMaxHeight
               ∧ Next hd kMaxHeight = Fault OutOfRange)
  ∧ (∀ cmp k,
       Contains key_lt key_eq (fresh_list key0 Random cmp) k = Fault OutOfRange)
  ∧ (∀ cmp k,
       Insert key_lt key_eq Uniform slots_doc (fresh_list key0 Random cmp) k
       = Fault OutOfRange)
  ∧ (∀ k i nd, Node_ctor slots_doc k i = Ok nd →
               height nd = i ∧ SetNext nd i None = Fault OutOfRange).
Proof.
  split_and!.
  - done.
  - apply SkipList_ctor_doc.
  - intros cmp hd [= <-]. done.
  - apply Contains_fresh_doc.
  - apply Insert_fresh_doc.
  - intros k i nd. rewrite Node_ctor_spec. unfold slots_doc.
    case_decide; [|done]. intros [= <-]. split; [done|].
    unfold SetNext; simpl. rewrite length_replicate.
    case_decide; [lia|done].
Qed.

(** C7. After [seek_to_first()] on an empty list [valid()] is claimed to
    be false, and on a non-empty list the iterator is claimed to stand on
    the smallest key, never on the head.  [SeekToFirst] sets [node_] to the
    head and [Valid] only compares [node_] with [nullptr]: on every list the
    iterator is valid and stands on the head (first part), and on the empty
    list [key()] is the head's key (second part).  On the list of the
    scenario, built on vectors with one spare entry, [key()] after
    [SeekToFirst] is the head's 0 and the keys 1, 3, 5 follow with [Next]
    (third part). *)
Theorem SeekToFirst_stands_on_head :
  (∀ l (it : Iterator),
     Valid (SeekToFirst l it) = true ∧ node_ (SeekToFirst l it) = Some (head_ l))
  ∧ (∀ cmp (it : Iterator),
       SkipList_ctor key0 Random slots_doc cmp = Ok (fresh_list key0 Random cmp)
       ∧ node_heights (fresh_list key0 Random cmp) = []
       ∧ Valid (SeekToFirst (fresh_list key0 Random cmp) it) = true
       ∧ Iterator_key (fresh_list key0 Random cmp)
                      (SeekToFirst (fresh_list key0 Random cmp) it) = Ok key0)
  ∧ iterator_walk (int_program slots_spare [1%Z; 1%Z; 1%Z; 1%Z] scenario)
    = Ok [0%Z; 1%Z; 3%Z; 5%Z].
Proof.
  split_and!; [apply SeekToFirst_Valid|done|].
  vm_compute. reflexivity.
Qed.

(** C9. [RandomHeight] always returns, whatever the generator draws: the
    height is 1 plus the number of leading draws equal to 0, counted over at
    most [kMaxHeight - 1] draws, so it lies between 1 and [kMaxHeight] = 12;
    the generator has been advanced by as many draws as the height. *)
Theorem RandomHeight_in_range (r : Rng) :
  ∃ h : nat,
    RandomHeight Uniform r = Ok (h, draws Uniform h r)
    ∧ h = 1 + zero_run Uniform (kMaxHeight - 1) r
    ∧ 1 ≤ h ≤ kMaxHeight ∧ kMaxHeight = 12.
Proof.
  exists (1 + zero_run Uniform (kMaxHeight - 1) r).
  split; [apply RandomHeight_eval|]. split; [done|]. split; [|done].
  pose proof (zero_run_le Uniform (kMaxHeight - 1) r). unfold kMaxHeight in *. lia.
Qed.

End Claims.

(** ** Runs of the scenario on vectors with one spare entry *)

(** With a spare entry the stores of [Insert] are in range, and a draw of
    height 1 links the new node at level 1, in key order. *)
Example scenario_spare_Contains :
  observe (int_program slots_spare [1%Z; 1%Z; 1%Z; 1%Z]
                       (scenario ++ [CallContains 3%Z; CallContains 7%Z]))
  = Ok ([None; None; None; None; Some false; Some false],
        (0, 1, [],
         [mkNode 0%Z 12 (None :: Some 2 :: replicate 11 None);
          mkNode 5%Z 1 [None; Some 3];
          mkNode 1%Z 1 [None; Some 4];
          mkNode 9%Z 1 [None; None];
          mkNode 3%Z 1 [None; Some 1]])).
Proof. vm_compute. reflexivity. Qed.

(** A draw of height 2 on the fresh list: [max_height_] is raised to 2, and
    the link loop then reads [preNode[2]], which the descent, run up to the
    old [max_height_], has not assigned. *)
Example Insert_tall_draw_spare :
  observe (int_program slots_spare [0%Z; 1%Z] [CallInsert 5%Z]) = Fault Uninitialized.
Proof. vm_compute. reflexivity. Qed.

(** * Further properties of the operations *)

(** A loop that returns has returned from each of its rounds. *)
Lemma for_loop_round {St} (body : nat → St → outcome St) count :
  ∀ i s s' j, for_loop i count body s = Ok s' → i ≤ j < i + count →
              ∃ sj sj', body j sj = Ok sj'.
Proof.
  induction count as [|count IH]; intros i s s' j H Hj; [lia|].
  simpl in H. apply bind_Ok_inv in H as (s1 & E & H).
  destruct (decide (j = i)) as [->|Hne]; [eauto|].
  apply (IH (S i) s1 s' j H). lia.
Qed.

Section PathFacts.

Context {Key : Type} (key_lt key_eq : Key → Key → bool) (key0 : Key).

Implicit Types (k : Key) (nd : Node (Key:=Key)) (m : list (Node (Key:=Key))).
Implicit Types (xs ys : list nat) (p q : option nat).

(** ** Links *)

Lemma link_Some m level a p :
  link m level a = Some p ↔ ∃ nd, m !! a = Some nd ∧ next_ nd !! level = Some p.
Proof.
  unfold link. destruct (m !! a) as [nd|]; simpl.
  - split; [eauto|]. by intros (? & [= <-] & ?).
  - split; [done|]. by intros (? & ? & ?).
Qed.

Lemma link_node_Next m level a p :
  link m level a = Some p → node_Next m a level = Ok p.
Proof.
  intros (nd & Ha & Hp)%link_Some. unfold node_Next, load, Next.
  rewrite Ha. simpl. by rewrite Hp.
Qed.

Lemma link_lt m level a p : link m level a = Some p → a < length m.
Proof. intros (nd & Ha & _)%link_Some. by eapply lookup_lt_Some. Qed.

(** ** Paths *)

Lemma path_app m level p xs ys q :
  path m level p (xs ++ ys) q ↔ ∃ r, path m level p xs r ∧ path m level r ys q.
Proof.
  revert p. induction xs as [|a xs IH]; intros p; simpl.
  - split; [eauto|]. by intros (r & -> & ?).
  - split.
    + intros (-> & nx & Hl & (r & H1 & H2)%IH). exists r. eauto 6.
    + intros (r & (-> & nx & Hl & H1) & H2). split; [done|].
      exists nx. split; [done|]. apply IH. eauto.
Qed.

Lemma path_lt m level p xs q a : path m level p xs q → a ∈ xs → a < length m.
Proof.
  revert p. induction xs as [|b xs IH]; intros p; simpl; [by intros _ ?%elem_of_nil|].
  intros (-> & nx & Hl & Hp) [->|Hin]%elem_of_cons; [by eapply link_lt|eauto].
Qed.

(** Addresses met once each are no more than there are nodes. *)
Lemma NoDup_addresses m xs :
  NoDup xs → (∀ a, a ∈ xs → a < length m) → length xs ≤ length m.
Proof.
  intros Hnd Hlt. rewrite <- (length_seq (length m) 0). apply submseteq_length.
  apply NoDup_submseteq; [done|]. intros a Ha. apply elem_of_seq.
  specialize (Hlt a Ha). lia.
Qed.

(** From one pointer the links of a level lead to [nullptr] along one
    sequence of nodes only. *)
Lemma path_unique m level xs :
  ∀ p ys, path m level p xs None → path m level p ys None → xs = ys.
Proof.
  induction xs as [|a xs IH]; intros p ys Hx Hy.
  - simpl in Hx. subst p. destruct ys as [|b ys]; [done|]. by destruct Hy as [? _].
  - destruct Hx as (-> & nx & Hl & Hx). destruct ys as [|b ys]; [done|].
    destruct Hy as ([= <-] & nx' & Hl' & Hy).
    rewrite Hl in Hl'. inversion Hl'; subst nx'. f_equal. by eapply IH.
Qed.

(** So a path that ends with [nullptr] meets no node twice, and has no more
    nodes than the arena. *)
Lemma path_None_NoDup m level xs : ∀ p, path m level p xs None → NoDup xs.
Proof.
  induction xs as [|a xs IH]; intros p Hp; [constructor|].
  pose proof Hp as (-> & nx & Hl & Hx). constructor; [|by eapply IH].
  intros (xs1 & xs2 & ->)%list_elem_of_split.
  apply path_app in Hx as (r & _ & Hr). pose proof Hr as (-> & _).
  pose proof (path_unique _ _ _ _ _ Hp Hr) as E.
  apply (f_equal length) in E. simpl in E. rewrite length_app in E. simpl in E. lia.
Qed.

Lemma path_None_length m level p xs :
  path m level p xs None → length xs ≤ length m.
Proof.
  intros Hp. apply NoDup_addresses; [by eapply path_None_NoDup|].
  intros a Ha. by eapply path_lt.
Qed.

(** ** The walk along a path *)

(** On a path that ends with [nullptr] the walk returns: it stops on the last
    node with a key less than [k] (or stays where it started), in front of
    the first node whose key is not less. *)
Lemma walk_path m k level ys :
  ∀ a fuel,
    path m level (Some a) (a :: ys) None → length ys < fuel →
    ∃ ys1 ys2 b,
      ys = ys1 ++ ys2
      ∧ walk key_lt fuel m k level a = Ok b
      ∧ last (a :: ys1) = Some b
      ∧ Forall (λ c, klt key_lt m k c = true) ys1
      ∧ match ys2 with [] => True | c :: _ => klt key_lt m k c = false end.
Proof.
  induction ys as [|c ys IH]; intros a fuel Hp Hfuel.
  - exists [], [], a. destruct Hp as (_ & nx & Hl & ->).
    destruct fuel as [|fuel]; [simpl in Hfuel; lia|]. cbn [walk]. unfold walk_cond.
    rewrite (link_node_Next _ _ _ _ Hl). by split_and!.
  - destruct Hp as (_ & nx & Hl & Hp). pose proof Hp as (-> & nx' & Hl' & Hp').
    destruct fuel as [|fuel]; [simpl in Hfuel; lia|]. cbn [walk]. unfold walk_cond.
    rewrite (link_node_Next _ _ _ _ Hl). simpl.
    apply link_Some in Hl' as Hc. destruct Hc as (nd & Hc & _).
    unfold load. rewrite Hc. simpl.
    destruct (key_lt (key nd) k) eqn:Hk; simpl.
    + destruct (IH c fuel) as (ys1 & ys2 & b & -> & Hw & Hlast & Hall & Hhd).
      { simpl. eauto. }
      { simpl in Hfuel. lia. }
      exists (c :: ys1), ys2, b. split_and!; try done.
      constructor; [|done]. unfold klt. by rewrite Hc.
    + exists [], (c :: ys), a. split_and!; try done. unfold klt. by rewrite Hc.
Qed.

(** X6. On any list, when the links of a level lead from a node through the
    nodes [ys] to [nullptr], the search loop of [Insert], [Remove] and
    [Contains] started on that node returns: it has passed the nodes whose
    keys are less than [k] and stands on the last of them (on the node it
    started from when there is none), in front of the first node whose key
    is not less than [k] or of [nullptr]. *)
Theorem walk_stops_before_first_not_less m k level a ys :
  path m level (Some a) (a :: ys) None →
  ∃ ys1 ys2 b,
    ys = ys1 ++ ys2
    ∧ walk key_lt (S (length m)) m k level a = Ok b
    ∧ last (a :: ys1) = Some b
    ∧ Forall (λ c, klt key_lt m k c = true) ys1
    ∧ match ys2 with [] => True | c :: _ => klt key_lt m k c = false end.
Proof.
  intros Hp. apply walk_path; [done|].
  pose proof (path_None_length _ _ _ _ Hp) as Hlen. simpl in Hlen. lia.
Qed.

End PathFacts.

Section Further.

Context {Key : Type} (key_lt key_eq : Key → Key → bool) (key0 : Key).
Context {Comparator : Type}.
Context {Rng : Type} (Random : Z → Rng) (Uniform : Rng → Z → Z * Rng).
Context (slots : nat → nat).

Implicit Types (k : Key) (nd : Node (Key:=Key)) (m : list (Node (Key:=Key))).
Implicit Types (l : SkipList (Key:=Key) (Comparator:=Comparator) (Rng:=Rng)).
Implicit Types (cmp : Comparator) (cs : list (call (Key:=Key))).
Implicit Types (xs ys : list nat) (ks : list Key).

(** ** Insert on any list *)

Lemma node_SetNext_heights_eq m a i x m' :
  node_SetNext m a i x = Ok m' → height <$> m' = height <$> m.
Proof.
  intros (nd & Ha & _ & ->)%node_SetNext_Ok.
  rewrite list_fmap_insert. simpl. apply list_insert_id.
  by rewrite list_lookup_fmap, Ha.
Qed.

(** The insertion part returns only when the drawn height is not above
    [max_height_]: otherwise the link loop comes to a level above the old
    [max_height_], where [preNode] was never assigned. *)
Lemma Insert_node_draw l k start pre l' :
  descend key_lt (arena l) k (max_height_ l) (head_ l) preNode_fresh
    = Ok (start, pre) →
  Insert_node Uniform slots l k pre = Ok l' →
  ∃ rh r m',
    RandomHeight Uniform (rnd_ l) = Ok (rh, r) ∧ rh ≤ max_height_ l
    ∧ for_loop 1 (max_height_ l) (Insert_link slots pre k) (arena l) = Ok m'
    ∧ l' = with_arena (with_rnd l r) m'.
Proof.
  intros Hdesc. unfold Insert_node. intros H.
  apply bind_Ok_inv in H as ([rh r] & Hrh & H). simpl in H.
  apply bind_Ok_inv in H as (l2 & Hl2 & H).
  apply bind_Ok_inv in H as (m' & Hloop & H). inversion H; subst l'; clear H.
  destruct (decide (max_height_ l < rh)) as [Hlt|Hge].
  - exfalso. apply bind_Ok_inv in Hl2 as (m1 & _ & Hl2).
    inversion Hl2; subst l2; clear Hl2. simpl in Hloop.
    destruct (for_loop_round _ _ _ _ _ (S (max_height_ l)) Hloop)
      as (mj & mj' & Hlink); [lia|].
    apply Insert_link_Ok in Hlink as (p & _ & _ & _ & Hp & _).
    eapply is_ok_false_Ok; [|exact Hp].
    eapply array_load_fresh_above; [exact Hdesc|lia].
  - inversion Hl2; subst l2; clear Hl2. simpl in Hloop.
    exists rh, r, m'. split_and!; [done|lia|done..].
Qed.

Lemma Insert_link_allocates pre k i m m' :
  Insert_link slots pre k i m = Ok m' →
  key <$> m' = (key <$> m) ++ [k] ∧ height <$> m' = (height <$> m) ++ [i].
Proof.
  intros (p & nx & m2 & Hs & Hp & Hnx & Hm2 & Hm')%Insert_link_Ok. split.
  - rewrite (node_SetNext_keys _ _ _ _ _ Hm'), (node_SetNext_keys _ _ _ _ _ Hm2).
    by rewrite fmap_app.
  - rewrite (node_SetNext_heights_eq _ _ _ _ _ Hm'),
            (node_SetNext_heights_eq _ _ _ _ _ Hm2).
    by rewrite fmap_app.
Qed.

Lemma link_loop_allocates pre k count :
  ∀ i m m',
    for_loop i count (Insert_link slots pre k) m = Ok m' →
    key <$> m' = (key <$> m) ++ replicate count k
    ∧ height <$> m' = (height <$> m) ++ seq i count.
Proof.
  induction count as [|count IH]; intros i m m' H; simpl in H.
  - inversion H; subst. simpl. by rewrite !app_nil_r.
  - apply bind_Ok_inv in H as (m1 & (Hk1 & Hh1)%Insert_link_allocates & H).
    destruct (IH _ _ _ H) as [Hk Hh]. rewrite Hk, Hh, Hk1, Hh1. simpl.
    by rewrite <- !app_assoc.
Qed.

(** X5. Whatever the list, a call of [Insert] that returns has left the
    comparator, the head and [max_height_] as they were.  Either it found
    the key after the search position and changed nothing at all, or it drew
    a height that is not above [max_height_] and allocated one node for every
    level from 1 to [max_height_], each with the key and with the level for
    its height; the keys and heights of the nodes that were there are
    untouched. *)
Theorem Insert_returns_frame l k l' :
  Insert key_lt key_eq Uniform slots l k = Ok l' →
  compare_ l' = compare_ l ∧ head_ l' = head_ l ∧ max_height_ l' = max_height_ l
  ∧ (l' = l
     ∨ (∃ rh, RandomHeight Uniform (rnd_ l) = Ok (rh, rnd_ l') ∧ rh ≤ max_height_ l)
       ∧ key <$> arena l' = (key <$> arena l) ++ replicate (max_height_ l) k
       ∧ height <$> arena l' = (height <$> arena l) ++ seq 1 (max_height_ l)).
Proof.
  unfold Insert. intros H.
  apply bind_Ok_inv in H as ([start pre] & Hdesc & H).
  apply bind_Ok_inv in H as (start0 & _ & H).
  apply bind_Ok_inv in H as ([|] & _ & H).
  - inversion H; subst. split_and!; try done. by left.
  - destruct (Insert_node_draw _ _ _ _ _ Hdesc H) as (rh & r & m' & Hrh & Hle & Hloop & ->).
    destruct (link_loop_allocates _ _ _ _ _ _ Hloop) as [Hk Hh].
    split_and!; try done. right. split_and!; [by exists rh|done..].
Qed.

(** ** Sequences of calls on any list *)

Lemma Insert_appends l k l' :
  Insert key_lt key_eq Uniform slots l k = Ok l' →
  compare_ l' = compare_ l ∧ head_ l' = head_ l ∧ max_height_ l' = max_height_ l
  ∧ key <$> arena l `prefix_of` key <$> arena l'
  ∧ height <$> arena l `prefix_of` height <$> arena l'.
Proof.
  unfold Insert. intros H.
  apply bind_Ok_inv in H as ([start pre] & Hdesc & H).
  apply bind_Ok_inv in H as (start0 & _ & H).
  apply bind_Ok_inv in H as ([|] & _ & H).
  - by inversion H; subst.
  - destruct (Insert_node_draw _ _ _ _ _ Hdesc H)
      as (rh & r & m' & Hrh & Hle & Hloop & ->).
    destruct (link_loop_allocates _ _ _ _ _ _ Hloop) as [Hk Hh].
    split_and!; try done; simpl; [rewrite Hk|rewrite Hh]; by apply prefix_app_r.
Qed.

Lemma do_call_frame l c r l' :
  do_call key_lt key_eq Uniform slots l c = Ok (r, l') →
  compare_ l' = compare_ l ∧ head_ l' = head_ l ∧ max_height_ l' = max_height_ l
  ∧ key <$> arena l `prefix_of` key <$> arena l'
  ∧ height <$> arena l `prefix_of` height <$> arena l'
  ∧ ((∀ k, c ≠ CallInsert k) → l' = l).
Proof.
  destruct c as [k|k|k]; simpl; intros H.
  - apply bind_Ok_inv in H as (l1 & Hi & H). inversion H; subst.
    destruct (Insert_appends _ _ _ Hi) as (? & ? & ? & ? & ?).
    split_and!; try done. intros Hno. by destruct (Hno k).
  - apply bind_Ok_inv in H as ([b l1] & Hr & H). inversion H; subst.
    by apply Remove_Ok in Hr as [_ ->].
  - apply bind_Ok_inv in H as (b & _ & H). by inversion H; subst.
Qed.

(** X3. On any list and whatever the length of the vectors, a sequence of
    calls that returns has left the comparator, the head and [max_height_]
    as they were, [Insert] included; no node was removed and no key or
    height of a node was changed, nodes were only appended; and when no call
    is an [Insert], the list is the one the sequence started from: [Remove]
    and [Contains] change nothing. *)
Theorem calls_keep_max_height l cs rs l' :
  do_calls key_lt key_eq Uniform slots l cs = Ok (rs, l') →
  compare_ l' = compare_ l ∧ head_ l' = head_ l ∧ max_height_ l' = max_height_ l
  ∧ key <$> arena l `prefix_of` key <$> arena l'
  ∧ height <$> arena l `prefix_of` height <$> arena l'
  ∧ ((∀ k, CallInsert k ∉ cs) → l' = l).
Proof.
  revert l rs. induction cs as [|c cs IH]; intros l rs H.
  - simpl in H. by inversion H; subst.
  - cbn [do_calls] in H.
    apply bind_Ok_inv in H as ([r l1] & Hc & H).
    apply bind_Ok_inv in H as ([rs1 l2] & Hcs & H). inversion H; subst.
    destruct (do_call_frame _ _ _ _ Hc) as (Hc1 & Hh1 & Hm1 & Hk1 & Hg1 & Hsame1).
    destruct (IH _ _ Hcs) as (Hc2 & Hh2 & Hm2 & Hk2 & Hg2 & Hsame2).
    split_and!; [congruence..|by etrans|by etrans|].
    intros Hno. rewrite Hsame2, Hsame1; [done| |].
    + intros k ->. apply (Hno k). left.
    + intros k Hk. apply (Hno k). by right.
Qed.

(** ** Insert when a node of height 1 has no entry at index 1 *)


(** ** Contains on a head of the documented height *)

(** X4. On any list whose head has at most [kMaxHeight] link entries, the
    head the constructor documents included, [Contains] ends by reading
    index [kMaxHeight] of the head, out of range, whatever the key and
    whatever the list holds: its descent starts at level [kMaxHeight]. *)
Theorem Contains_reads_past_head l k hd :
  arena l !! head_ l = Some hd → length (next_ hd) ≤ kMaxHeight →
  Contains key_lt key_eq l k = Fault OutOfRange.
Proof.
  intros Hhd Hlen. unfold Contains, kMaxHeight. cbn [descend_ro walk].
  unfold walk_cond, node_Next, load. rewrite Hhd. simpl. unfold Next.
  rewrite (proj2 (lookup_ge_None _ _)); [done|]. unfold kMaxHeight in Hlen. lia.
Qed.

(** ** The iterator along the links of level 1 *)

Lemma Iterator_Next_link l a prev nx :
  link (arena l) 1 a = Some nx →
  Iterator_Next l (mkIterator (Some a) prev) = Ok (mkIterator nx (Some a)).
Proof.
  intros (nd & Ha & Hn)%link_Some. unfold Iterator_Next, deref, load, Next. simpl.
  rewrite Ha. simpl. by rewrite Hn.
Qed.

Lemma Nexts_snoc n l (it : Iterator) :
  Nexts (S n) l it = it' ← Nexts n l it; Iterator_Next l it'.
Proof.
  revert it. induction n as [|n IH]; intros it.
  - simpl. by destruct (Iterator_Next l it).
  - change (Nexts (S (S n)) l it) with (it' ← Iterator_Next l it; Nexts (S n) l it').
    change (Nexts (S n) l it) with (it' ← Iterator_Next l it; Nexts n l it').
    destruct (Iterator_Next l it) as [it1| |]; [|done..]. apply IH.
Qed.

(** [i] calls of [Next()] from the start of a path that ends with [nullptr]
    bring the iterator to the [i]-th pointer of the path. *)
Lemma Nexts_path l ys :
  ∀ p prev i,
    path (arena l) 1 p ys None → i ≤ length ys →
    ∃ it, Nexts i l (mkIterator p prev) = Ok it
          ∧ ((Some <$> ys) ++ [None]) !! i = Some (node_ it).
Proof.
  induction ys as [|a ys IH]; intros p prev i Hp Hi.
  - simpl in Hp, Hi. subst p. assert (i = 0) as -> by lia. by eexists.
  - destruct Hp as (-> & nx & Hl & Hp). destruct i as [|i]; [by eexists|].
    destruct (IH nx (Some a) i Hp) as (it & Hn & Hpos); [simpl in Hi; lia|].
    exists it. split; [|done]. cbn [Nexts].
    by rewrite (Iterator_Next_link _ _ _ _ Hl).
Qed.

(** X7. On any list, when the level-1 links lead from the iterator's node
    through the nodes [xs] to [nullptr], [i + 1] calls of [Next()] bring the
    iterator, valid, to the [i]-th of these nodes, where [key()] reads that
    node's key: the iterator follows the links of level 1, not of level 0.
    One call more than there are nodes leaves it invalid, and the call
    after that dereferences the null [node_]. *)
Theorem iterator_reads_level1_chain l a xs prev :
  path (arena l) 1 (Some a) (a :: xs) None →
  (∀ i b, xs !! i = Some b →
     ∃ it nd, Nexts (S i) l (mkIterator (Some a) prev) = Ok it
              ∧ node_ it = Some b ∧ Valid it = true
              ∧ arena l !! b = Some nd ∧ Iterator_key l it = Ok (key nd))
  ∧ (∃ it, Nexts (S (length xs)) l (mkIterator (Some a) prev) = Ok it
           ∧ Valid it = false)
  ∧ Nexts (S (S (length xs))) l (mkIterator (Some a) prev) = Fault NullDeref.
Proof.
  intros Hpath.
  assert (∀ i, i ≤ length xs →
            ∃ it, Nexts (S i) l (mkIterator (Some a) prev) = Ok it
                  ∧ ((Some <$> xs) ++ [None]) !! i = Some (node_ it)) as Hpos.
  { intros i Hi. apply (Nexts_path l (a :: xs) (Some a) prev (S i) Hpath).
    simpl. lia. }
  assert (∃ it, Nexts (S (length xs)) l (mkIterator (Some a) prev) = Ok it
                ∧ node_ it = None) as (itend & Hend & Hnone).
  { destruct (Hpos (length xs)) as (it & Hn & Hp); [done|]. exists it. split; [done|].
    rewrite lookup_app_r in Hp by (by rewrite length_fmap).
    rewrite length_fmap, Nat.sub_diag in Hp. by inversion Hp. }
  split_and!.
  - intros i b Hi.
    destruct (Hpos i) as (it & Hn & Hp); [apply lookup_lt_Some in Hi; lia|].
    rewrite lookup_app_l in Hp by (rewrite length_fmap; by eapply lookup_lt_Some).
    rewrite list_lookup_fmap, Hi in Hp. inversion Hp as [Hnode].
    destruct (lookup_lt_is_Some_2 (arena l) b) as [nd Hnd].
    { eapply path_lt; [exact Hpath|]. right. by eapply list_elem_of_lookup_2. }
    exists it, nd. split_and!; try done.
    + unfold Valid. by rewrite <- Hnode.
    + unfold Iterator_key, deref, load. rewrite <- Hnode. by rewrite Hnd.
  - exists itend. split; [done|]. unfold Valid. by rewrite Hnone.
  - rewrite Nexts_snoc, Hend. simpl. unfold Iterator_Next. by rewrite Hnone.
Qed.

(** X8. [Prev()] after [Next()] stands where the iterator stood before that
    [Next()], and a second [Prev()] stays there: the iterator remembers one
    position only. *)
Theorem Prev_undoes_one_Next l (it0 it : Iterator) n :
  Nexts (S n) l it0 = Ok it →
  ∃ it1, Nexts n l it0 = Ok it1
         ∧ node_ (Prev it) = node_ it1
         ∧ Prev (Prev it) = Prev it.
Proof.
  rewrite Nexts_snoc. intros H. apply bind_Ok_inv in H as (it1 & H1 & H).
  exists it1. split; [done|]. unfold Iterator_Next in H.
  apply bind_Ok_inv in H as (nd & _ & H). apply bind_Ok_inv in H as (nx & _ & H).
  by inversion H.
Qed.

Lemma Seek_loop_path l target ys :
  ∀ p prev fuel,
    path (arena l) 1 p ys None → length ys < fuel →
    ∃ it, Seek_loop key_lt fuel (arena l) target (mkIterator p prev) = Ok it
          ∧ node_ it = List.find (λ a, negb (klt key_lt (arena l) target a)) ys.
Proof.
  induction ys as [|a ys IH]; intros p prev fuel Hp Hfuel.
  - simpl in Hp. subst p. destruct fuel as [|fuel]; [simpl in Hfuel; lia|].
    by eexists.
  - destruct Hp as (-> & nx & Hl & Hp).
    destruct fuel as [|fuel]; [simpl in Hfuel; lia|]. cbn [Seek_loop node_].
    apply link_Some in Hl as (nd & Ha & Hn). unfold load. rewrite Ha. simpl.
    unfold klt. rewrite Ha. destruct (key_lt (key nd) target); simpl.
    + unfold Next. rewrite Hn. simpl. apply IH; [done|simpl in Hfuel; lia].
    + by eexists.
Qed.

Lemma Seek_loop_stops fuel :
  ∀ m target (it it' : Iterator),
    Seek_loop key_lt fuel m target it = Ok it' →
    ∀ a, node_ it' = Some a → klt key_lt m target a = false ∧ is_Some (m !! a).
Proof.
  induction fuel as [|fuel IH]; intros m target it it' H a Ha; [done|].
  cbn [Seek_loop] in H. destruct (node_ it) as [b|] eqn:Hb.
  - apply bind_Ok_inv in H as (nd & Hnd & H). unfold load in Hnd.
    destruct (m !! b) as [nd'|] eqn:E; [|done]. inversion Hnd; subst nd'.
    destruct (key_lt (key nd) target) eqn:Hk.
    + apply bind_Ok_inv in H as (nx & _ & H). by eapply IH.
    + inversion H; subst it'. rewrite Hb in Ha. inversion Ha; subst a.
      unfold klt. rewrite E. eauto.
  - inversion H; subst it'. by rewrite Hb in Ha.
Qed.

(** X9. [Seek(target)] never stops on a node whose key is less than
    [target]: when it returns with a valid iterator, the iterator stands on
    a node of the arena whose key is not less than [target].  An invalid
    iterator is left as it is. *)
Theorem Seek_never_stops_on_less target :
  (∀ l (it it' : Iterator) a,
     Seek key_lt l it target = Ok it' → node_ it' = Some a →
     klt key_lt (arena l) target a = false ∧ is_Some (arena l !! a))
  ∧ (∀ l prev, Seek key_lt l (mkIterator None prev) target
               = Ok (mkIterator None prev)).
Proof.
  split.
  - intros l it it' a H. by eapply Seek_loop_stops.
  - done.
Qed.

(** X14. On any list, when the level-1 links lead from the iterator's node
    through the nodes [xs], that node first, to [nullptr], [Seek(target)]
    returns and stands on the first of them whose key is not less than
    [target], the node it started from included; it is invalid when there is
    none.  The scan starts where the iterator stands, not at the head. *)
Theorem Seek_stops_at_first_not_less l target (it : Iterator) xs :
  path (arena l) 1 (node_ it) xs None →
  ∃ it', Seek key_lt l it target = Ok it'
         ∧ node_ it'
           = List.find (λ a, negb (klt key_lt (arena l) target a)) xs.
Proof.
  intros Hp. destruct it as [p prev]. simpl in Hp. unfold Seek.
  apply (Seek_loop_path l target xs p prev); [done|].
  pose proof (path_None_length _ _ _ _ Hp). lia.
Qed.

Lemma SeekToLast_loop_path l ys :
  ∀ a prev fuel,
    path (arena l) 1 (Some a) (a :: ys) None → length ys < fuel →
    ∃ it, SeekToLast_loop fuel (arena l) (mkIterator (Some a) prev) = Ok it
          ∧ node_ it = last (a :: ys).
Proof.
  induction ys as [|b ys IH]; intros a prev fuel Hp Hfuel.
  - destruct Hp as (_ & nx & (nd & Ha & Hn)%link_Some & ->).
    destruct fuel as [|fuel]; [simpl in Hfuel; lia|]. cbn [SeekToLast_loop].
    unfold deref, load, Next. simpl. rewrite Ha. simpl. rewrite Hn. by eexists.
  - destruct Hp as (_ & nx & (nd & Ha & Hn)%link_Some & Hp).
    pose proof Hp as (-> & _).
    destruct fuel as [|fuel]; [simpl in Hfuel; lia|]. cbn [SeekToLast_loop].
    unfold deref, load, Next. simpl. rewrite Ha. simpl. rewrite Hn. simpl.
    destruct (IH b (Some a) fuel Hp) as (it & Hit & Hlast); [simpl in Hfuel; lia|].
    exists it. by split.
Qed.

(** X10. On any list, when the level-1 links lead from the iterator's node
    through the nodes [xs] to [nullptr], [SeekToLast()] returns and stands on
    the last of them, or stays where it is when there is none: the iterator
    is valid in both cases, on the head too.  The walk starts where the
    iterator stands; on an invalid iterator it dereferences the null
    [node_]. *)
Theorem SeekToLast_stands_on_last l a xs prev :
  (∀ l0 prev0, SeekToLast l0 (mkIterator None prev0) = Fault NullDeref)
  ∧ (path (arena l) 1 (Some a) (a :: xs) None →
     ∃ it, SeekToLast l (mkIterator (Some a) prev) = Ok it
           ∧ node_ it = last (a :: xs)
           ∧ Valid it = true).
Proof.
  split; [done|]. intros Hp. unfold SeekToLast.
  destruct (SeekToLast_loop_path l xs a prev (S (length (arena l))) Hp)
    as (it & Hit & Hlast).
  { pose proof (path_None_length _ _ _ _ Hp) as H. simpl in H. lia. }
  exists it. split_and!; [done..|]. unfold Valid. rewrite Hlast.
  destruct (last (a :: xs)) eqn:E; [done|]. by apply last_None in E.
Qed.

(** ** The constructors *)

(** X11. The constructor of a node returns exactly when the vector has room
    for the stores at the indices below [height], and the node then has the
    key and null links only; the constructor of the list returns exactly when
    the head's vector has room for [kMaxHeight] stores, and the list is then
    empty at every level, with [max_height_] 1 and the generator seeded with
    114514. *)
Theorem constructors_return :
  (∀ k h,
     Node_ctor slots k h
     = if decide (h ≤ slots h)
       then Ok (mkNode k h (replicate (slots h) None)) else Fault OutOfRange)
  ∧ (∀ cmp,
       SkipList_ctor key0 Random slots cmp
       = if decide (kMaxHeight ≤ slots kMaxHeight)
         then Ok (mkSkipList cmp 0 1 (Random 114514)
                    [mkNode key0 kMaxHeight (replicate (slots kMaxHeight) None)])
         else Fault OutOfRange)
  ∧ (∀ cmp L,
       level_chain (mkSkipList cmp 0 1 (Random 114514)
                      [mkNode key0 kMaxHeight (replicate (slots kMaxHeight) None)]) L
       = []).
Proof.
  split_and!.
  - apply Node_ctor_spec.
  - intros cmp. unfold SkipList_ctor, NewNode. rewrite Node_ctor_spec.
    by case_decide.
  - intros cmp L. unfold level_chain. simpl.
    destruct (replicate (slots kMaxHeight) None !! L) as [p|] eqn:E; [|done].
    by apply lookup_replicate in E as [-> _].
Qed.

(** ** Loads and stores on a node *)

(** X13. After [a->SetNext(i, x)] has returned, [a->Next(i)] returns [x];
    every other [Next], on the same node at another index or on another
    node, gives what it gave before the store, a fault included; no key
    and no vector length has changed. *)
Theorem SetNext_then_Next (m : list Node) a i x m' :
  node_SetNext m a i x = Ok m' →
  node_Next m' a i = Ok x
  ∧ (∀ b j, b ≠ a ∨ j ≠ i → node_Next m' b j = node_Next m b j)
  ∧ key <$> m' = key <$> m
  ∧ (λ nd, length (next_ nd)) <$> m' = (λ nd, length (next_ nd)) <$> m.
Proof.
  intros H. pose proof (node_SetNext_keys _ _ _ _ _ H) as Hkeys.
  apply node_SetNext_Ok in H as (nd & Ha & Hi & ->).
  pose proof (lookup_lt_Some _ _ _ Ha) as Hlt.
  split_and!.
  - unfold node_Next, load. rewrite list_lookup_insert_eq by done. simpl.
    unfold Next. simpl. by rewrite list_lookup_insert_eq.
  - intros b j Hbj. unfold node_Next, load.
    destruct (decide (b = a)) as [->|Hne].
    + rewrite list_lookup_insert_eq by done. rewrite Ha. simpl.
      unfold Next. simpl. rewrite list_lookup_insert_ne; [done|].
      destruct Hbj as [?|?]; [done|]. congruence.
    + by rewrite list_lookup_insert_ne.
  - done.
  - rewrite list_fmap_insert. simpl. rewrite length_insert.
    apply list_insert_id. by rewrite list_lookup_fmap, Ha.
Qed.

End Further.

(** * The operations with the vectors as declared and as documented *)

Section AsWritten.

Context {Key : Type} (key_lt key_eq : Key → Key → bool) (key0 : Key).
Context {Comparator : Type}.
Context {Rng : Type} (Random : Z → Rng) (Uniform : Rng → Z → Z * Rng).

Implicit Types (k : Key) (nd : Node (Key:=Key)).
Implicit Types (l : SkipList (Key:=Key) (Comparator:=Comparator) (Rng:=Rng)).
Implicit Types (cmp : Comparator) (cs : list (call (Key:=Key))).


(** X2. With the vector as the code declares it the constructor of the list
    stores out of range, so every sequence of calls ends there.  With the
    vector as documented the constructor returns and the first call ends in
    a fault, whatever the key and whatever follows: [Insert] and [Contains]
    out of range, [Remove] in a null dereference.  No call returns on a list
    that the constructor made. *)
Theorem no_call_returns_on_a_new_list :
  (∀ cmp cs,
     program key_lt key_eq key0 Random Uniform slots_declared cmp cs
     = Fault OutOfRange)
  ∧ (∀ cmp c cs,
       program key_lt key_eq key0 Random Uniform slots_doc cmp (c :: cs)
       = Fault match c with CallRemove _ => NullDeref | _ => OutOfRange end).
Proof.
  split; [done|]. intros cmp [k|k|k] cs.
  - apply program_Insert_first_doc.
  - unfold program. rewrite SkipList_ctor_doc.
    cbn [mbind outcome_bind do_calls do_call]. by rewrite Remove_fresh_doc.
  - unfold program. rewrite SkipList_ctor_doc.
    cbn [mbind outcome_bind do_calls do_call]. by rewrite Contains_fresh_doc.
Qed.

End AsWritten.

(** * The further properties on the list with the single key 5 *)


Lemma calls_keep_max_height_witness :
  ∃ rs l',
    do_calls Z.ltb Z.eqb script_Uniform slots_declared int_one_key
             [CallInsert 5%Z; CallRemove 5%Z] = Ok (rs, l')
    ∧ rs = [None; Some false]
    ∧ head_ l' = head_ int_one_key
    ∧ max_height_ l' = max_height_ int_one_key.
Proof.
  eexists _, _. split; [vm_compute; reflexivity|]. split; [reflexivity|].
  destruct (calls_keep_max_height Z.ltb Z.eqb script_Uniform slots_declared
              int_one_key [CallInsert 5%Z; CallRemove 5%Z]
              [None; Some false] int_one_key) as (_ & H1 & H2 & _);
    [vm_compute; reflexivity|].
  split; [exact H1|exact H2].
Defined.

Lemma Contains_reads_past_head_witness :
  (∃ hd, arena int_one_key !! head_ int_one_key = Some hd
         ∧ length (next_ hd) = 12 ∧ next_ hd !! 0 = Some (Some 1))
  ∧ Contains Z.ltb Z.eqb int_one_key 5%Z = Fault OutOfRange.
Proof.
  split; [eexists; split_and!; reflexivity|].
  eapply (Contains_reads_past_head Z.ltb Z.eqb int_one_key 5%Z);
    [reflexivity|vm_compute; lia].
Defined.

Lemma Insert_returns_frame_witness :
  ∃ l', Insert Z.ltb Z.eqb script_Uniform slots_declared int_one_key 5%Z = Ok l'
        ∧ compare_ l' = compare_ int_one_key ∧ head_ l' = head_ int_one_key
        ∧ max_height_ l' = max_height_ int_one_key.
Proof.
  eexists. split; [vm_compute; reflexivity|].
  destruct (Insert_returns_frame Z.ltb Z.eqb script_Uniform slots_declared
              int_one_key 5%Z int_one_key) as (H1 & H2 & H3 & _);
    [vm_compute; reflexivity|].
  split_and!; [exact H1|exact H2|exact H3].
Defined.

Lemma walk_stops_before_first_not_less_witness :
  path (arena int_one_key) 1 (Some 0) [0; 1] None
  ∧ ∃ ys1 ys2 b,
      [1] = ys1 ++ ys2
      ∧ walk Z.ltb (S (length (arena int_one_key))) (arena int_one_key) 7%Z 1 0 = Ok b
      ∧ last (0 :: ys1) = Some b
      ∧ Forall (λ c, klt Z.ltb (arena int_one_key) 7%Z c = true) ys1
      ∧ match ys2 with
        | [] => True
        | c :: _ => klt Z.ltb (arena int_one_key) 7%Z c = false
        end.
Proof.
  assert (path (arena int_one_key) 1 (Some 0) [0; 1] None) as Hp.
  { simpl. split; [reflexivity|]. eexists. split; [reflexivity|].
    split; [reflexivity|]. eexists. split; reflexivity. }
  split; [exact Hp|].
  exact (walk_stops_before_first_not_less Z.ltb (arena int_one_key) 7%Z 1 0 [1] Hp).
Defined.

Lemma iterator_reads_level1_chain_witness :
  path (arena int_one_key) 1 (Some 0) [0; 1] None
  ∧ ∃ it nd, Nexts 1 int_one_key (Iterator_ctor int_one_key) = Ok it
             ∧ node_ it = Some 1 ∧ Valid it = true
             ∧ arena int_one_key !! 1 = Some nd
             ∧ Iterator_key int_one_key it = Ok (key nd).
Proof.
  assert (path (arena int_one_key) 1 (Some 0) [0; 1] None) as Hp.
  { simpl. split; [reflexivity|]. eexists. split; [reflexivity|].
    split; [reflexivity|]. eexists. split; reflexivity. }
  split; [exact Hp|].
  destruct (iterator_reads_level1_chain int_one_key 0 [1] None Hp) as (H & _).
  exact (H 0 1 eq_refl).
Defined.

Lemma Prev_undoes_one_Next_witness :
  ∃ it, Nexts 2 int_one_key (Iterator_ctor int_one_key) = Ok it
        ∧ ∃ it1, Nexts 1 int_one_key (Iterator_ctor int_one_key) = Ok it1
                 ∧ node_ (Prev it) = node_ it1
                 ∧ Prev (Prev it) = Prev it.
Proof.
  eexists. split; [vm_compute; reflexivity|].
  eapply Prev_undoes_one_Next. vm_compute; reflexivity.
Defined.

Lemma Seek_never_stops_on_less_witness :
  ∃ it', Seek Z.ltb int_one_key (Iterator_ctor int_one_key) 3%Z = Ok it'
         ∧ node_ it' = Some 1
         ∧ klt Z.ltb (arena int_one_key) 3%Z 1 = false
         ∧ is_Some (arena int_one_key !! 1).
Proof.
  eexists. split; [vm_compute; reflexivity|]. split; [reflexivity|].
  destruct (Seek_never_stops_on_less Z.ltb (Comparator:=Z → Z → comparison)
              (Rng:=list Z) 3%Z) as [H _].
  eapply (H int_one_key (Iterator_ctor int_one_key)); [vm_compute|]; reflexivity.
Defined.

Lemma Seek_stops_at_first_not_less_witness :
  path (arena int_one_key) 1 (Some 0) [0; 1] None
  ∧ ∃ it', Seek Z.ltb int_one_key (Iterator_ctor int_one_key) 3%Z = Ok it'
           ∧ node_ it'
             = List.find (λ a, negb (klt Z.ltb (arena int_one_key) 3%Z a)) [0; 1].
Proof.
  assert (path (arena int_one_key) 1 (Some 0) [0; 1] None) as Hp.
  { simpl. split; [reflexivity|]. eexists. split; [reflexivity|].
    split; [reflexivity|]. eexists. split; reflexivity. }
  split; [exact Hp|].
  exact (Seek_stops_at_first_not_less Z.ltb int_one_key 3%Z
           (Iterator_ctor int_one_key) [0; 1] Hp).
Defined.

Lemma SeekToLast_stands_on_last_witness :
  path (arena int_one_key) 1 (Some 0) [0; 1] None
  ∧ ∃ it, SeekToLast int_one_key (Iterator_ctor int_one_key) = Ok it
          ∧ node_ it = last [0; 1] ∧ Valid it = true.
Proof.
  assert (path (arena int_one_key) 1 (Some 0) [0; 1] None) as Hp.
  { simpl. split; [reflexivity|]. eexists. split; [reflexivity|].
    split; [reflexivity|]. eexists. split; reflexivity. }
  split; [exact Hp|].
  destruct (SeekToLast_stands_on_last int_one_key 0 [1] None) as (_ & H).
  exact (H Hp).
Defined.

Lemma walk_fuel_enough_witness :
  walk Z.ltb 9 (arena int_one_key) 7%Z 1 0 = Ok 1
  ∧ walk Z.ltb (S (length (arena int_one_key))) (arena int_one_key) 7%Z 1 0 = Ok 1.
Proof.
  split; [vm_compute; reflexivity|].
  eapply (walk_fuel_enough Z.ltb _ _ _ 9); [vm_compute; reflexivity|done].
Defined.

Lemma SetNext_then_Next_witness :
  ∃ m', node_SetNext (arena int_one_key) 1 2 (Some 0) = Ok m'
        ∧ node_Next m' 1 2 = Ok (Some 0).
Proof.
  eexists. split; [vm_compute; reflexivity|].
  match goal with
  | |- node_Next ?m' _ _ = _ =>
      destruct (SetNext_then_Next (arena int_one_key) 1 2 (Some 0) m')
        as [H _]; [vm_compute; reflexivity|exact H]
  end.
Defined.
